(** * liboprf: threshold OPRF (src/toprf.c) and the TP-DKG wire header (src/tp-dkg.h)

    A shallow embedding of [coeff], [toprf_create_shares],
    [toprf_thresholdmult], [toprf_Evaluate] and [toprf_thresholdcombine],
    and of the packed [TP_DKG_Message] header with the two fixed message
    sizes derived from it.

    Conventions.
    - A [uint8_t] is a [Z] in [0, 256); wrap-around is written out where the
      C code can wrap.
    - A 32-byte buffer (scalar or encoded group element) is the integer it
      holds in little-endian byte order, a [Z] in [0, 2^256).  Hence
      [uint8_t x[32]={0}; x[0]=i;] is the integer [i], and [memset(r,0,32)]
      is [0].
    - libsodium is an external library.  Its scalar arithmetic is modelled
      by the arithmetic modulo the group order [L] that it documents; the
      group itself is kept abstract behind the interface [Ristretto255]. *)

From Stdlib Require Import String ZArith Znumtheory Lia List Bool Permutation.
From Stdlib Require Import Zmod Field.
Import ListNotations.
Local Open Scope Z_scope.

(* ===================================================================== *)
(** * Part I: definitions *)
(* ===================================================================== *)

(** ** libsodium constants (sodium.h) *)

Definition crypto_core_ristretto255_BYTES : Z := 32.
Definition crypto_core_ristretto255_SCALARBYTES : Z := 32.
Definition crypto_scalarmult_ristretto255_BYTES : Z := 32.
Definition crypto_scalarmult_ristretto255_SCALARBYTES : Z := 32.
Definition crypto_sign_BYTES : Z := 64.
Definition crypto_sign_PUBLICKEYBYTES : Z := 32.
Definition crypto_generichash_BYTES : Z := 32.
Definition crypto_secretbox_xchacha20poly1305_MACBYTES : Z := 16.
Definition crypto_auth_hmacsha256_BYTES : Z := 32.

(** The order of the ristretto255 group, the modulus of its scalar field. *)
Definition L : Z := 2 ^ 252 + 27742317777372353535851937790883648493.
Arguments L : simpl never.

(** ** libsodium scalar arithmetic

    [crypto_core_ristretto255_scalar_add], [_sub] and [_mul] store the sum,
    difference and product of [x] and [y] modulo [L] in [z];
    [crypto_core_ristretto255_scalar_invert]
    stores the multiplicative inverse modulo [L] (and [0] for [0]; its
    return code is not read by toprf.c). *)

Definition crypto_core_ristretto255_scalar_add (x y : Z) : Z := (x + y) mod L.
Definition crypto_core_ristretto255_scalar_sub (x y : Z) : Z := (x - y) mod L.
Definition crypto_core_ristretto255_scalar_mul (x y : Z) : Z := (x * y) mod L.
Definition crypto_core_ristretto255_scalar_invert (s : Z) : Z := Z.invmod s L.

(** ** The ristretto255 group

    The group is external to the repository: elements ([ge25519_p3] in
    libsodium), their addition, the multiple of an element by a
    non-negative integer, and the 32-byte encoding with its validating
    decoder.  The laws are those of a group of order [L] with a canonical
    encoding: the all-zero string encodes the identity, and a valid
    encoding is an even integer below [2^255 - 19]. *)

Class Ristretto255 : Type := {
  ge25519_p3 : Type;
  ge25519_p3_0 : ge25519_p3;
  ge25519_add : ge25519_p3 -> ge25519_p3 -> ge25519_p3;
  ge25519_scalarmult : Z -> ge25519_p3 -> ge25519_p3;
  ristretto255_frombytes : Z -> option ge25519_p3;
  ristretto255_p3_tobytes : ge25519_p3 -> Z;

  ge25519_add_assoc : forall p q r,
    ge25519_add p (ge25519_add q r) = ge25519_add (ge25519_add p q) r;
  ge25519_add_comm : forall p q, ge25519_add p q = ge25519_add q p;
  ge25519_add_0_l : forall p, ge25519_add ge25519_p3_0 p = p;
  ge25519_scalarmult_0 : forall p, ge25519_scalarmult 0 p = ge25519_p3_0;
  ge25519_scalarmult_succ : forall n p, 0 <= n ->
    ge25519_scalarmult (n + 1) p = ge25519_add p (ge25519_scalarmult n p);
  ge25519_scalarmult_L : forall p, ge25519_scalarmult L p = ge25519_p3_0;
  ristretto255_frombytes_tobytes : forall p,
    ristretto255_frombytes (ristretto255_p3_tobytes p) = Some p;
  ristretto255_tobytes_frombytes : forall s p,
    ristretto255_frombytes s = Some p -> ristretto255_p3_tobytes p = s;
  ristretto255_tobytes_0 : ristretto255_p3_tobytes ge25519_p3_0 = 0;
  ristretto255_frombytes_canonical : forall s p,
    ristretto255_frombytes s = Some p ->
    0 <= s < 2 ^ 255 - 19 /\ Z.even s = true
}.

(** A reference instance: the additive group of integers modulo [L], an
    element [x] encoded as [2 * x].  Every group of order [L] is isomorphic
    to it; it makes the model executable. *)

Definition ZL_group : Ristretto255.
Proof.
  refine {|
  ge25519_p3 := Zmod L;
  ge25519_p3_0 := Zmod.zero;
  ge25519_add := Zmod.add;
  ge25519_scalarmult := fun n p => Zmod.mul (Zmod.of_Z L n) p;
  ristretto255_frombytes := fun s =>
    if (0 <=? s) && (s <? 2 * L) && Z.even s
    then Some (Zmod.of_Z L (s / 2)) else None;
  ristretto255_p3_tobytes := fun p => 2 * Zmod.to_Z p
  |}.
  - intros. apply Zmod.add_assoc.
  - intros. apply Zmod.add_comm.
  - intros. apply Zmod.add_0_l.
  - intros. rewrite Zmod.of_Z_0. apply Zmod.mul_0_l.
  - intros. rewrite Zmod.of_Z_add, Zmod.of_Z_1, Zmod.mul_add_l, Zmod.mul_1_l.
    apply Zmod.add_comm.
  - intros. replace (Zmod.of_Z L L) with (@Zmod.zero L).
    + apply Zmod.mul_0_l.
    + apply Zmod.to_Z_inj. rewrite Zmod.to_Z_of_Z, Zmod.to_Z_0.
      symmetry. apply Z_mod_same_full.
  - intros p. pose proof (Zmod.unsigned_pos_bound p eq_refl) as Hp.
    replace ((0 <=? 2 * Zmod.to_Z p) && (2 * Zmod.to_Z p <? 2 * L)) with true.
    + rewrite Z.even_mul. cbn [Z.even orb andb].
      rewrite (Z.mul_comm 2), Z.div_mul by lia.
      now rewrite Zmod.of_Z_to_Z.
    + symmetry. apply andb_true_intro. split; [apply Z.leb_le|apply Z.ltb_lt]; lia.
  - intros s p H.
    destruct ((0 <=? s) && (s <? 2 * L) && Z.even s) eqn:E; [|discriminate].
    injection H as <-.
    apply andb_prop in E. destruct E as [E Hev].
    apply andb_prop in E. destruct E as [H0 H1].
    apply Z.leb_le in H0. apply Z.ltb_lt in H1.
    apply Zeven_bool_iff in Hev. apply Zeven_div2 in Hev.
    rewrite Z.div2_div in Hev.
    rewrite Zmod.to_Z_of_Z, Z.mod_small; lia.
  - reflexivity.
  - intros s p H.
    destruct ((0 <=? s) && (s <? 2 * L) && Z.even s) eqn:E; [|discriminate].
    apply andb_prop in E. destruct E as [E Hev].
    apply andb_prop in E. destruct E as [H0 H1].
    apply Z.leb_le in H0. apply Z.ltb_lt in H1.
    split; [|exact Hev].
    assert (2 * L < 2 ^ 255 - 19) by (vm_compute; reflexivity). lia.
Defined.

(** ** libsodium group primitives

    Each returns its return code together with the new content of its
    output buffer; the first argument is the old content of that buffer.

    [crypto_core_ristretto255_add(r, p, q)]: -1, with [r] untouched, when
    [p] or [q] is not a valid encoding; otherwise the encoded sum and 0.

    [crypto_scalarmult_ristretto255(q, n, p)]: -1, with [q] untouched, when
    [p] is not a valid encoding; otherwise [q] receives [n * p] (bit 255 of
    [n] is cleared first) and the return code is -1 when [q] is the
    all-zero string, the identity, and 0 otherwise. *)

Section Primitives.
Context {R : Ristretto255}.

Definition crypto_core_ristretto255_is_valid_point (p : Z) : bool :=
  match ristretto255_frombytes p with Some _ => true | None => false end.

Definition crypto_core_ristretto255_add (r p q : Z) : Z * Z :=
  match ristretto255_frombytes p, ristretto255_frombytes q with
  | Some P, Some Q => (0, ristretto255_p3_tobytes (ge25519_add P Q))
  | _, _ => (-1, r)
  end.

Definition crypto_scalarmult_ristretto255 (q n p : Z) : Z * Z :=
  match ristretto255_frombytes p with
  | None => (-1, q)
  | Some P =>
      let t := n mod 2 ^ 255 in
      let q' := ristretto255_p3_tobytes (ge25519_scalarmult t P) in
      (if q' =? 0 then -1 else 0, q')
  end.

(** Modelled from the spec: [oprf_Evaluate] of oprf.c, which is not among
    the sources.  "Inputs: scalar key k, a group element alpha.  Output
    beta = alpha^k.  Fails if alpha is not a valid group element."  The
    output buffer is left as it was on failure. *)
Definition oprf_Evaluate (k blinded Z_ : Z) : Z * Z :=
  match ristretto255_frombytes blinded with
  | None => (1, Z_)
  | Some P => (0, ristretto255_p3_tobytes (ge25519_scalarmult k P))
  end.
End Primitives.

(** ** toprf.c *)

(** [typedef struct { uint8_t index; uint8_t value[32]; }
     __attribute((packed)) TOPRF_Share;] and likewise [TOPRF_Part]. *)
Record TOPRF_Share : Type := mkShare { share_index : Z; share_value : Z }.
Record TOPRF_Part : Type := mkPart { part_index : Z; part_value : Z }.

Definition TOPRF_Share_BYTES : Z := crypto_core_ristretto255_SCALARBYTES + 1.
Definition TOPRF_Part_BYTES : Z := crypto_core_ristretto255_BYTES + 1.

(** The loop of [coeff]: [peers] is the array with its length [peers_len];
    the pair is ([divident], [divisor]). *)
Fixpoint coeff_loop (index : Z) (peers : list Z) (divident divisor : Z) : Z * Z :=
  match peers with
  | [] => (divident, divisor)
  | pj :: rest =>
      if pj =? index then coeff_loop index rest divident divisor
      else
        let tmp := pj in
        let divident := crypto_core_ristretto255_scalar_mul divident tmp in
        let tmp := crypto_core_ristretto255_scalar_sub tmp index in
        let divisor := crypto_core_ristretto255_scalar_mul divisor tmp in
        coeff_loop index rest divident divisor
  end.

Definition coeff (index : Z) (peers : list Z) : Z :=
  let '(divident, divisor) := coeff_loop index peers 1 1 in
  let divisor := crypto_core_ristretto255_scalar_invert divisor in
  crypto_core_ristretto255_scalar_mul divisor divident.

(** What a call of a C function comes to: a result, a write outside an
    array, or no return within the allotted number of loop iterations. *)
Inductive outcome (A : Type) : Type :=
| Returned (a : A)
| OutOfBounds
| OutOfFuel.
Arguments Returned {A} a.
Arguments OutOfBounds {A}.
Arguments OutOfFuel {A}.

(** [arr[k] = v] on an array held as a list. *)
Fixpoint list_set {A : Type} (l : list A) (k : nat) (v : A) : list A :=
  match l, k with
  | [], _ => []
  | _ :: r, O => v :: r
  | x :: r, S k' => x :: list_set r k' v
  end.

Definition store {A : Type} (arr : list A) (k : Z) (v : A) : option (list A) :=
  if (0 <=? k) && (k <? Z.of_nat (length arr))
  then Some (list_set arr (Z.to_nat k) v) else None.

(** The randomness of [crypto_core_ristretto255_scalar_random]: [rand c] is
    what the call number [c] of the run returns; the state is the number of
    calls made so far. *)
Definition randomness : Type := nat -> Z.

(** First loop of [toprf_create_shares]: [a[i]] for [i < threshold-1]. *)
Fixpoint sample_coefficients (rand : randomness) (calls : nat) (count : nat)
  : list Z * nat :=
  match count with
  | O => ([], calls)
  | S count' =>
      let ai := rand calls in
      let '(rest, calls') := sample_coefficients rand (S calls) count' in
      (ai :: rest, calls')
  end.

(** The loop over [j]: [a] holds [a[j], a[j+1], ...]; [value] is
    [shares[i-1].value]. *)
Fixpoint share_value_loop (x : Z) (a : list Z) (j : nat) (value : Z) : Z :=
  match a with
  | [] => value
  | aj :: rest =>
      let tmp := crypto_core_ristretto255_scalar_mul aj x in
      let tmp := Nat.iter j (fun tmp => crypto_core_ristretto255_scalar_mul tmp x) tmp in
      share_value_loop x rest (S j)
        (crypto_core_ristretto255_scalar_add value tmp)
  end.

(** The loop [for(i=1;i<=n;i++)]: [i] is a [uint8_t], so [i++] wraps at
    256, and [shares[i-1]] is written at the [int] index [i-1]. *)
Fixpoint shares_loop (fuel : nat) (secret n : Z) (a : list Z) (i : Z)
    (shares : list TOPRF_Share) : outcome (list TOPRF_Share) :=
  match fuel with
  | O => OutOfFuel
  | S fuel' =>
      if i <=? n then
        let x := i in
        let value := share_value_loop x a 0 secret in
        match store shares (i - 1) (mkShare i value) with
        | None => OutOfBounds
        | Some shares' =>
            shares_loop fuel' secret n a ((i + 1) mod 256) shares'
        end
      else Returned shares
  end.

(** [toprf_create_shares(secret, n, threshold, shares)]: the result is the
    array [shares] and the number of random scalars drawn so far. *)
Definition toprf_create_shares (fuel : nat) (rand : randomness) (calls : nat)
    (secret n threshold : Z) (shares : list TOPRF_Share)
  : outcome (list TOPRF_Share * nat) :=
  let '(a, calls') := sample_coefficients rand calls (Z.to_nat (threshold - 1)) in
  match shares_loop fuel secret n a 1 shares with
  | Returned shares' => Returned (shares', calls')
  | OutOfBounds => OutOfBounds
  | OutOfFuel => OutOfFuel
  end.

Section Toprf.
Context {R : Ristretto255}.

(** Second loop of [toprf_thresholdmult]; the pair is the return code
    and [result].  [gki] is a local buffer: its content before the call
    of [crypto_scalarmult_ristretto255] (written 0 here) is never read. *)
Fixpoint thresholdmult_loop (indexes : list Z) (responses : list TOPRF_Part)
    (result : Z) : Z * Z :=
  match responses with
  | [] => (0, result)
  | r :: rest =>
      let lpoly := coeff (part_index r) indexes in
      let '(rc, gki) := crypto_scalarmult_ristretto255 0 lpoly (part_value r) in
      if rc =? 0 then
        let '(_, result) := crypto_core_ristretto255_add result result gki in
        thresholdmult_loop indexes rest result
      else (1, result)
  end.

Definition toprf_thresholdmult (responses : list TOPRF_Part) : Z * Z :=
  let result := 0 in
  let indexes := map part_index responses in
  thresholdmult_loop indexes responses result.

(** [toprf_Evaluate(k, blinded, self, indexes, index_len, Z)]: the return
    code and the buffer [Z], of which only [Z->value] is passed on. *)
Definition toprf_Evaluate (k : TOPRF_Share) (blinded : Z) (self : Z)
    (indexes : list Z) (Z_ : TOPRF_Part) : Z * TOPRF_Part :=
  let lpoly := coeff self indexes in
  let kl := crypto_core_ristretto255_scalar_mul (share_value k) lpoly in
  let '(rc, value) := oprf_Evaluate kl blinded (part_value Z_) in
  let Z_ := mkPart (part_index Z_) value in
  if rc =? 0 then (0, Z_) else (1, Z_).

Fixpoint thresholdcombine_loop (responses : list TOPRF_Part) (result : Z) : Z :=
  match responses with
  | [] => result
  | r :: rest =>
      let '(_, result) := crypto_core_ristretto255_add result result (part_value r) in
      thresholdcombine_loop rest result
  end.

Definition toprf_thresholdcombine (responses : list TOPRF_Part) : Z :=
  let result := 0 in
  thresholdcombine_loop responses result.
End Toprf.

(** ** tp-dkg.h: the message header and the fixed message sizes *)

Inductive ctype : Type := uint8_t | uint32_t | uint64_t.

Definition sizeof_ctype (t : ctype) : Z :=
  match t with uint8_t => 1 | uint32_t => 4 | uint64_t => 8 end.

(** A member of a struct: its name, element type and number of elements
    (1 for a scalar member, 0 for a flexible array member). *)
Record member : Type := mkMember { m_name : string; m_type : ctype; m_count : Z }.

Definition sizeof_member (m : member) : Z := sizeof_ctype (m_type m) * m_count m.

(** [sizeof] of a struct declared [__attribute((packed))]: no padding. *)
Definition sizeof_packed (members : list member) : Z :=
  fold_right (fun m acc => sizeof_member m + acc) 0 members.

(** [offsetof] of the member number [k] of a packed struct. *)
Definition offsetof_packed (members : list member) (k : nat) : Z :=
  sizeof_packed (firstn k members).

Definition tpdkg_sessionid_SIZE : Z := 32.

Definition TP_DKG_Message_members : list member :=
  [ mkMember "sig" uint8_t crypto_sign_BYTES;
    mkMember "msgno" uint8_t 1;
    mkMember "len" uint32_t 1;
    mkMember "from" uint8_t 1;
    mkMember "to" uint8_t 1;
    mkMember "ts" uint64_t 1;
    mkMember "sessionid" uint8_t tpdkg_sessionid_SIZE;
    mkMember "data" uint8_t 0 ].

Definition TOPRF_Share_members : list member :=
  [ mkMember "index" uint8_t 1;
    mkMember "value" uint8_t crypto_core_ristretto255_SCALARBYTES ].

Definition sizeof_TP_DKG_Message : Z := sizeof_packed TP_DKG_Message_members.
Definition sizeof_TOPRF_Share : Z := sizeof_packed TOPRF_Share_members.

Definition tpdkg_msg0_SIZE : Z :=
  sizeof_TP_DKG_Message
  + crypto_generichash_BYTES
  + 2
  + crypto_sign_PUBLICKEYBYTES.

Definition noise_xk_handshake3_SIZE : Z := 64.

Definition tpdkg_msg8_SIZE : Z :=
  sizeof_TP_DKG_Message
  + noise_xk_handshake3_SIZE
  + sizeof_TOPRF_Share
  + crypto_secretbox_xchacha20poly1305_MACBYTES
  + crypto_auth_hmacsha256_BYTES.

(** The content of a header: every member is the integer its bytes hold in
    little-endian order (the byte order of the wire format). *)
Record TP_DKG_Message : Type := mkMessage {
  sig : Z; msgno : Z; len : Z; from : Z; to : Z; ts : Z; sessionid : Z
}.

Fixpoint le_bytes (n : nat) (v : Z) : list Z :=
  match n with
  | O => []
  | S n' => v mod 256 :: le_bytes n' (v / 256)
  end.

Definition member_values (m : TP_DKG_Message) : list Z :=
  [sig m; msgno m; len m; from m; to m; ts m; sessionid m; 0].

(** The bytes of a packed struct in memory: the members in declaration
    order, each on [sizeof_member] bytes. *)
Definition packed_bytes (members : list member) (values : list Z) : list Z :=
  concat (map (fun mv => le_bytes (Z.to_nat (sizeof_member (fst mv))) (snd mv))
              (combine members values)).

Definition TP_DKG_Message_bytes (m : TP_DKG_Message) : list Z :=
  packed_bytes TP_DKG_Message_members (member_values m).

(** ** The properties of the specification, in its own terms *)

Definition scalar_prod (l : list Z) : Z :=
  fold_right crypto_core_ristretto255_scalar_mul 1 l.

Definition scalar_sum (l : list Z) : Z :=
  fold_right crypto_core_ristretto255_scalar_add 0 l.

(** [j * (j - i)^-1] in the scalar field. *)
Definition lagrange_factor (i j : Z) : Z :=
  crypto_core_ristretto255_scalar_mul j
    (crypto_core_ristretto255_scalar_invert
       (crypto_core_ristretto255_scalar_sub j i)).

(** The Lagrange coefficient of the specification: the product over
    [j] in [P], [j <> i], of [j * (j - i)^-1]. *)
Definition lagrange_coefficient (i : Z) (P : list Z) : Z :=
  scalar_prod (map (lagrange_factor i) (filter (fun j => negb (j =? i)) P)).

(** [a_m * x^m + a_(m+1) * x^(m+1) + ...] over the integers. *)
Fixpoint poly_terms (a : list Z) (m : Z) (x : Z) : Z :=
  match a with
  | [] => 0
  | am :: rest => am * x ^ m + poly_terms rest (m + 1) x
  end.

(** [f(x) = s + a_1 x + ... + a_(t-1) x^(t-1)] in the scalar field. *)
Definition share_polynomial (s : Z) (a : list Z) (x : Z) : Z :=
  (s + poly_terms a 1 x) mod L.

(** The share of index [i]: [shares[i-1]]. *)
Definition share_at (shares : list TOPRF_Share) (i : Z) : TOPRF_Share :=
  nth (Z.to_nat (i - 1)) shares (mkShare 0 0).

(** Scalar-domain combination: the sum over [i] in [P] of
    [coeff(i, P) * f(i)]. *)
Definition reconstruct (P : list Z) (shares : list TOPRF_Share) : Z :=
  scalar_sum
    (map (fun i => crypto_core_ristretto255_scalar_mul (coeff i P)
                     (share_value (share_at shares i))) P).

(** The sum of the group elements that a list of encodings holds; a string
    that is not a valid encoding holds none. *)
Section GroupSum.
Context {R : Ristretto255}.

Fixpoint ge25519_sum (l : list ge25519_p3) : ge25519_p3 :=
  match l with
  | [] => ge25519_p3_0
  | p :: rest => ge25519_add (ge25519_sum rest) p
  end.

Fixpoint decode_valid (values : list Z) : list ge25519_p3 :=
  match values with
  | [] => []
  | v :: rest =>
      match ristretto255_frombytes v with
      | Some p => p :: decode_valid rest
      | None => decode_valid rest
      end
  end.
End GroupSum.

(** ** Primality certificates

    [L] is shown prime by Pocklington's criterion, checked by computation:
    modular exponentiation by repeated squaring, trial division for the
    small primes at the end of the chain. *)

Fixpoint powmod_pos (a : Z) (e : positive) (m : Z) : Z :=
  match e with
  | xH => a mod m
  | xO e' => let h := powmod_pos a e' m in (h * h) mod m
  | xI e' => let h := powmod_pos a e' m in (((h * h) mod m) * a) mod m
  end.

Definition powmod (a e m : Z) : Z :=
  match e with
  | Zpos p => powmod_pos a p m
  | _ => 1 mod m
  end.

Fixpoint trial (k : nat) (d n : Z) : bool :=
  match k with
  | O => true
  | S k' => if n mod d =? 0 then false else trial k' (d + 1) n
  end.

Definition prime_small (n : Z) : bool :=
  (1 <? n) && trial (Z.to_nat (Z.sqrt n) - 1) 2 n.

Definition zprod (l : list Z) : Z := fold_right Z.mul 1 l.

Fixpoint coprime_chain (qs : list Z) : bool :=
  match qs with
  | [] => true
  | q :: r => (Z.gcd q (zprod r) =? 1) && coprime_chain r
  end.

(** [qs] are primes whose product divides [N - 1] and is at least the
    square root of [N]; [a] is the base. *)
Definition pock_check (N a : Z) (qs : list Z) : bool :=
  (1 <? N) && ((N - 1) mod zprod qs =? 0) && (N <=? zprod qs * zprod qs)
  && (powmod a (N - 1) N =? 1)
  && forallb (fun q => Z.gcd (powmod a ((N - 1) / q) N - 1) N =? 1) qs
  && coprime_chain qs.

(** ** Devices of the proofs *)

(** The field of scalars, and a scalar buffer read as an element of it. *)
Local Notation "'Fq'" := (Zmod L).

Definition fe (x : Z) : Fq := Zmod.of_Z L x.

(** The index bytes. *)
Definition is_byte (i : Z) : Prop := 0 <= i < 256.

(** Lagrange interpolation at zero; the nodes are index bytes, read in the
    field through [fe]. *)

(** The product over [j] in [P], [j <> i], of [j / (j - i)]. *)
Fixpoint lam (i : Z) (P : list Z) : Fq :=
  match P with
  | [] => Zmod.one
  | j :: rest =>
      if j =? i then lam i rest
      else Zmod.mul (Zmod.mdiv (fe j) (Zmod.sub (fe j) (fe i))) (lam i rest)
  end.

(** The sum over [i] in [Q] of [f i * lam i P]. *)
Fixpoint interp (f : Fq -> Fq) (Q P : list Z) : Fq :=
  match Q with
  | [] => Zmod.zero
  | i :: rest => Zmod.add (Zmod.mul (f (fe i)) (lam i P)) (interp f rest P)
  end.

(** A polynomial by its coefficients, constant term first. *)
Fixpoint peval (cs : list Fq) (x : Fq) : Fq :=
  match cs with
  | [] => Zmod.zero
  | c :: rest => Zmod.add c (Zmod.mul x (peval rest x))
  end.

(** Division of a polynomial by [x - a]: remainder and quotient. *)
Fixpoint pdiv (a : Fq) (cs : list Fq) : Fq * list Fq :=
  match cs with
  | [] => (Zmod.zero, [])
  | c :: rest =>
      match rest with
      | [] => (c, [])
      | _ => let '(r, q) := pdiv a rest in (Zmod.add c (Zmod.mul a r), r :: q)
      end
  end.

(** A response that the scalar multiplication of [toprf_thresholdmult]
    rejects. *)
Definition rejected {R : Ristretto255} (indexes : list Z) (r : TOPRF_Part) : Prop :=
  crypto_core_ristretto255_is_valid_point (part_value r) = false \/
  part_value r = 0 \/
  coeff (part_index r) indexes = 0.

(** The raw parts [(i, alpha^(f(i)))], [i] in [P], of the group element
    [alpha]: the Lagrange factors are not folded in. *)
Definition raw_parts {R : Ristretto255} (shares : list TOPRF_Share)
    (alpha : ge25519_p3) (P : list Z) : list TOPRF_Part :=
  map (fun i => mkPart i (ristretto255_p3_tobytes
                            (ge25519_scalarmult (share_value (share_at shares i)) alpha)))
      P.

(** The partial evaluations of the shareholders in [P]; [Zbuf i] is the
    content of the output buffer of shareholder [i] before the call. *)
Definition partial_evaluations {R : Ristretto255} (shares : list TOPRF_Share)
    (alpha : Z) (P : list Z) (Zbuf : Z -> TOPRF_Part) : list (Z * TOPRF_Part) :=
  map (fun i => toprf_Evaluate (share_at shares i) alpha i P (Zbuf i)) P.

(** Claims of the specification that the code does not meet, as stated. *)

(** "[toprf_thresholdmult] on the raw parts of every valid point returns 0
    and writes [alpha^s]". *)
Definition thresholdmult_raw_as_stated {R : Ristretto255}
    (s : Z) (shares : list TOPRF_Share) (P : list Z) (alpha : ge25519_p3) : Prop :=
  toprf_thresholdmult (raw_parts shares alpha P)
  = (0, ristretto255_p3_tobytes (ge25519_scalarmult s alpha)).

(** "[toprf_thresholdmult] returns non-zero if and only if some value
    field is not a canonical group element". *)
Definition thresholdmult_fails_as_stated {R : Ristretto255}
    (responses : list TOPRF_Part) : Prop :=
  fst (toprf_thresholdmult responses) <> 0 <->
  Exists (fun r => crypto_core_ristretto255_is_valid_point (part_value r) = false)
         responses.

(** "[toprf_thresholdcombine] writes the group sum of the value fields":
    every field holds a group element, and the result encodes their sum. *)
Definition thresholdcombine_as_stated {R : Ristretto255}
    (responses : list TOPRF_Part) : Prop :=
  exists ps,
    map ristretto255_frombytes (map part_value responses) = map Some ps /\
    toprf_thresholdcombine responses = ristretto255_p3_tobytes (ge25519_sum ps).

(** Data for the examples. *)
Definition example_rand : randomness := fun c => Z.of_nat c * 1234567 + 99.
Definition example_buffer (n : nat) : list TOPRF_Share := repeat (mkShare 0 0) n.
Definition example_shares : list TOPRF_Share :=
  [mkShare 1 141; mkShare 2 240; mkShare 3 339].

(** ** Devices of the further properties *)





(** A share array with the value of the share of index [i] replaced. *)
Definition replace_share (shares : list TOPRF_Share) (i v : Z) : list TOPRF_Share :=
  list_set shares (Z.to_nat (i - 1)) (mkShare i v).





(** The responses with every value multiplied by the coefficient of its
    index: the strings [gki] of [toprf_thresholdmult]. *)
Definition scale_parts {R : Ristretto255} (indexes : list Z)
    (responses : list TOPRF_Part) : list TOPRF_Part :=
  map (fun r => mkPart (part_index r)
                 (snd (crypto_scalarmult_ristretto255 0
                         (coeff (part_index r) indexes) (part_value r))))
      responses.

Definition TOPRF_Part_members : list member :=
  [ mkMember "index" uint8_t 1;
    mkMember "value" uint8_t crypto_core_ristretto255_BYTES ].



(* ===================================================================== *)
(** * Part II: the scalar field *)
(* ===================================================================== *)

(** ** [L] is prime *)

Lemma powmod_pos_spec a e m : powmod_pos a e m = a ^ Zpos e mod m.
Proof.
  induction e as [e IH|e IH|]; cbn [powmod_pos].
  - rewrite IH, Pos2Z.inj_xI.
    replace (2 * Z.pos e + 1) with (Z.pos e + Z.pos e + 1) by lia.
    rewrite !Z.pow_add_r, Z.pow_1_r by lia.
    rewrite <- Zmult_mod, Zmult_mod_idemp_l. reflexivity.
  - rewrite IH, Pos2Z.inj_xO.
    replace (2 * Z.pos e) with (Z.pos e + Z.pos e) by lia.
    rewrite Z.pow_add_r by lia. rewrite <- Zmult_mod. reflexivity.
  - now rewrite Z.pow_1_r.
Qed.

Lemma powmod_spec a e m : 0 <= e -> powmod a e m = a ^ e mod m.
Proof.
  destruct e; intros; cbn [powmod]; try lia.
  - reflexivity.
  - apply powmod_pos_spec.
Qed.

(* every integer above 1 has a prime divisor *)
Lemma prime_divisor_exists n : 1 < n -> exists p, Z.prime p /\ (p | n).
Proof.
  intros Hn. assert (H0 : 0 <= n) by lia. revert Hn.
  pattern n. apply (Z_lt_induction); [|exact H0].
  clear n H0. intros n IH Hn.
  destruct (prime_dec n) as [Hp|Hnp].
  - exists n. split; [now apply prime_alt|apply Z.divide_refl].
  - destruct (not_prime_divide n Hn Hnp) as (d & Hd & Hdiv).
    destruct (IH d) as (p & Hp & Hpd); try lia.
    exists p. split; [exact Hp|]. eapply Z.divide_trans; eauto.
Qed.

Lemma prime_of_large_divisors n :
  1 < n -> (forall p, Z.prime p -> (p | n) -> n < p * p) -> Z.prime n.
Proof.
  intros Hn Hbig. split; [exact Hn|].
  intros d Hd [m Hm].
  assert (Hmpos : 1 < m < n) by nia.
  assert (Hsmall : exists e, 1 < e /\ (e | n) /\ e * e <= n).
  { destruct (Z_le_gt_dec d m).
    - exists d. repeat split; try lia; [exists m; lia | nia].
    - exists m. repeat split; try lia; [exists d; lia | nia]. }
  destruct Hsmall as (e & He & Hen & Hee).
  destruct (prime_divisor_exists e He) as (p & Hp & Hpe).
  assert (p <= e) by (apply Z.divide_pos_le; [lia|exact Hpe]).
  pose proof (Z.prime_ge_2 _ Hp).
  specialize (Hbig p Hp (Z.divide_trans _ _ _ Hpe Hen)). nia.
Qed.

Lemma trial_sound k : forall d n, 0 < d ->
  trial k d n = true -> forall e, d <= e < d + Z.of_nat k -> ~ (e | n).
Proof.
  induction k as [|k IH]; intros d n Hd Ht e He; [lia|].
  cbn [trial] in Ht.
  destruct (n mod d =? 0) eqn:Hmod; [discriminate|].
  apply Z.eqb_neq in Hmod.
  destruct (Z.eq_dec e d) as [->|Hne].
  - intros Hdiv. apply Hmod. apply Z.mod_divide; [lia|exact Hdiv].
  - apply (IH (d + 1) n); [lia|exact Ht|lia].
Qed.

Lemma prime_small_sound n : prime_small n = true -> Z.prime n.
Proof.
  unfold prime_small. intros H. apply andb_prop in H. destruct H as [H1 H2].
  apply Z.ltb_lt in H1.
  apply prime_of_large_divisors; [exact H1|].
  intros p Hp Hpn.
  pose proof (Z.prime_ge_2 _ Hp) as Hp2.
  destruct (Z_lt_le_dec n (p * p)) as [|Hle]; [assumption|exfalso].
  assert (Hs : p <= Z.sqrt n).
  { apply Z.sqrt_le_square; lia. }
  refine (trial_sound _ 2 n _ H2 p _ Hpn); lia.
Qed.

(* the multiplicative order argument behind Pocklington's criterion *)
Lemma pock_divisor N a q p :
  1 < N -> Z.prime q -> (q | N - 1) ->
  a ^ (N - 1) mod N = 1 ->
  Z.gcd (a ^ ((N - 1) / q) mod N - 1) N = 1 ->
  Z.prime p -> (p | N) -> (q | p - 1).
Proof.
  intros HN Hq Hqd Hfer Hgcd Hp HpN.
  pose proof (Z.prime_ge_2 _ Hp) as Hp2.
  pose proof (Z.prime_ge_2 _ Hq) as Hq2.
  set (R := (N - 1) / q) in *.
  assert (HR : N - 1 = q * R).
  { unfold R. destruct Hqd as [c Hc]. rewrite Hc, Z.div_mul by lia. lia. }
  assert (HR0 : 0 <= R) by nia.
  (* reduce the two facts modulo p *)
  assert (Hmodp : forall x, (x mod N) mod p = x mod p).
  { intros x. destruct HpN as [c Hc]. rewrite Hc.
    rewrite Z.mul_comm. apply Z.mod_mod_divide. exists c. lia. }
  set (Y := Zmod.of_Z p (a ^ R)).
  assert (HYq : Zmod.pow Y q = Zmod.one).
  { unfold Y. rewrite <- Zmod.of_Z_pow by lia.
    rewrite <- Z.pow_mul_r by lia. rewrite Z.mul_comm, <- HR.
    rewrite <- Zmod.of_Z_1. apply Zmod.of_Z_inj.
    rewrite <- Hmodp, Hfer. reflexivity. }
  assert (HY1 : Y <> Zmod.one).
  { intros HY. unfold Y in HY. rewrite <- Zmod.of_Z_1 in HY.
    apply Zmod.of_Z_inj in HY. rewrite <- Hmodp in HY.
    assert (Hd : (p | a ^ R mod N - 1)).
    { apply Z.mod_divide; [lia|]. rewrite Zminus_mod, HY.
      rewrite Z.sub_diag. apply Z.mod_0_l. lia. }
    assert (Hd1 : (p | 1)).
    { rewrite <- Hgcd. apply Z.gcd_greatest; assumption. }
    apply Z.divide_1_r_nonneg in Hd1; lia. }
  destruct (Z.BoolSpec_divide q (p - 1)) as [|Hnd]; [assumption|exfalso].
  apply HY1.
  assert (Hcop : Z.coprime q (p - 1)) by (apply Z.coprime_prime_l; assumption).
  apply Z.Bezout_coprime in Hcop. destruct Hcop as (u & v & Huv).
  assert (HYnz : Y <> Zmod.zero).
  { intros H0. rewrite H0 in HYq. rewrite Zmod.pow_0_l in HYq by lia.
    symmetry in HYq. revert HYq. apply Zmod.one_neq_zero. lia. }
  assert (HYc : Z.gcd (Zmod.to_Z Y) p = 1).
  { rewrite Z.gcd_comm. apply Z.coprime_prime_small; [assumption|].
    pose proof (Zmod.unsigned_pos_bound Y ltac:(lia)).
    assert (Zmod.to_Z Y <> 0).
    { intros Hz. apply HYnz. apply Zmod.to_Z_inj. rewrite Hz, Zmod.to_Z_0. reflexivity. }
    lia. }
  rewrite <- (Zmod.pow_1_r Y). rewrite <- Huv.
  rewrite Zmod.pow_add_r_coprime by exact HYc.
  rewrite (Z.mul_comm u q), (Z.mul_comm v (p - 1)).
  rewrite !Zmod.pow_mul_r_coprime by exact HYc.
  rewrite HYq. replace (p - 1) with (Z.pred p) by lia.
  rewrite (Zmod.fermat_nz Y HYnz Hp).
  rewrite !Zmod.pow_1_l. apply Zmod.mul_1_l.
Qed.

Lemma zprod_divides qs : forall m,
  coprime_chain qs = true -> Forall (fun q => (q | m)) qs -> (zprod qs | m).
Proof.
  induction qs as [|q r IH]; intros m Hc Hall; cbn [zprod fold_right].
  - apply Z.divide_1_l.
  - cbn [coprime_chain] in Hc. apply andb_prop in Hc. destruct Hc as [Hg Hc].
    apply Z.eqb_eq in Hg. inversion Hall as [|? ? Hq Hr]; subst.
    fold (zprod r). specialize (IH m Hc Hr).
    destruct IH as [c Hcm]. subst m.
    apply Z.mul_divide_mono_r.
    apply (Z.gauss q (zprod r) c); [|exact Hg].
    rewrite Z.mul_comm. exact Hq.
Qed.

Theorem pock_check_sound N a qs :
  Forall Z.prime qs -> pock_check N a qs = true -> Z.prime N.
Proof.
  intros Hqs Hc. unfold pock_check in Hc.
  repeat (apply andb_prop in Hc; destruct Hc as [Hc ?]).
  rename H into Hchain, H0 into Hg, H1 into Hfer, H2 into Hsq, H3 into HF.
  apply Z.ltb_lt in Hc. apply Z.eqb_eq in HF, Hfer. apply Z.leb_le in Hsq.
  rewrite powmod_spec in Hfer by lia.
  assert (HFpos : 0 < zprod qs).
  { clear -Hqs. induction Hqs as [|q r Hq _ IH]; cbn; [lia|].
    pose proof (Z.prime_ge_2 _ Hq). fold (zprod r). nia. }
  assert (HFdiv : (zprod qs | N - 1)) by (apply Z.mod_divide; [lia|exact HF]).
  apply prime_of_large_divisors; [exact Hc|].
  intros p Hp HpN.
  pose proof (Z.prime_ge_2 _ Hp) as Hp2.
  assert (Hall : Forall (fun q => (q | p - 1)) qs).
  { rewrite Forall_forall. intros q Hin.
    rewrite Forall_forall in Hqs. specialize (Hqs q Hin).
    rewrite forallb_forall in Hg. specialize (Hg q Hin). apply Z.eqb_eq in Hg.
    assert (Hqd : (q | N - 1)).
    { eapply Z.divide_trans; [|exact HFdiv].
      clear -Hin. induction qs as [|x r IH]; [destruct Hin|].
      cbn. fold (zprod r). destruct Hin as [->|Hin].
      - apply Z.divide_factor_l.
      - apply Z.divide_mul_r. auto. }
    assert (0 <= (N - 1) / q).
    { pose proof (Z.prime_ge_2 _ Hqs). apply Z.div_pos; lia. }
    rewrite powmod_spec in Hg by assumption.
    eapply pock_divisor; eauto. }
  pose proof (zprod_divides qs (p - 1) Hchain Hall) as HFp.
  apply Z.divide_pos_le in HFp; [|lia]. nia.
Qed.

Lemma prime_531581 : Z.prime 531581.
Proof. apply prime_small_sound. vm_compute. reflexivity. Qed.
Lemma prime_1224481 : Z.prime 1224481.
Proof. apply prime_small_sound. vm_compute. reflexivity. Qed.
Lemma prime_c5 : Z.prime 1257559732178653.
Proof.
  apply (pock_check_sound _ 2 [531581; 1224481]).
  - repeat constructor; [apply prime_531581|apply prime_1224481].
  - vm_compute. reflexivity.
Qed.
Lemma prime_c4 : Z.prime 4434155615661930479.
Proof.
  apply (pock_check_sound _ 2 [1257559732178653]).
  - repeat constructor. apply prime_c5.
  - vm_compute. reflexivity.
Qed.
Lemma prime_c3 : Z.prime 172054593956031949258510691.
Proof.
  apply (pock_check_sound _ 2 [4434155615661930479]).
  - repeat constructor. apply prime_c4.
  - vm_compute. reflexivity.
Qed.
Lemma prime_c2 : Z.prime 19757330305831588566944191468367130476339.
Proof.
  apply (pock_check_sound _ 2 [172054593956031949258510691]).
  - repeat constructor. apply prime_c3.
  - vm_compute. reflexivity.
Qed.
Lemma prime_c1 : Z.prime 276602624281642239937218680557139826668747.
Proof.
  apply (pock_check_sound _ 2 [19757330305831588566944191468367130476339]).
  - repeat constructor. apply prime_c2.
  - vm_compute. reflexivity.
Qed.
Theorem L_prime : Z.prime L.
Proof.
  apply (pock_check_sound _ 2 [276602624281642239937218680557139826668747]).
  - repeat constructor. apply prime_c1.
  - vm_compute. reflexivity.
Qed.

(** ** The field of scalars *)

Add Field Fq_field : (Zmod.field_theory L L_prime).

Lemma L_pos : 0 < L.
Proof. reflexivity. Qed.

Lemma fe_add x y :
  fe (crypto_core_ristretto255_scalar_add x y) = Zmod.add (fe x) (fe y).
Proof.
  unfold fe, crypto_core_ristretto255_scalar_add.
  now rewrite Zmod.of_Z_mod, Zmod.of_Z_add.
Qed.

Lemma fe_sub x y :
  fe (crypto_core_ristretto255_scalar_sub x y) = Zmod.sub (fe x) (fe y).
Proof.
  unfold fe, crypto_core_ristretto255_scalar_sub.
  now rewrite Zmod.of_Z_mod, Zmod.of_Z_sub.
Qed.

Lemma fe_mul x y :
  fe (crypto_core_ristretto255_scalar_mul x y) = Zmod.mul (fe x) (fe y).
Proof.
  unfold fe, crypto_core_ristretto255_scalar_mul.
  now rewrite Zmod.of_Z_mod, Zmod.of_Z_mul.
Qed.

Lemma fe_invert x :
  fe (crypto_core_ristretto255_scalar_invert x) = Zmod.inv (fe x).
Proof.
  unfold fe, crypto_core_ristretto255_scalar_invert.
  apply Zmod.to_Z_inj.
  rewrite Zmod.to_Z_inv, !Zmod.to_Z_of_Z, Z.invmod_mod_l.
  apply Z.mod_invmod.
Qed.

(** The inverse is the power [L - 2], which is how libsodium computes it. *)
Lemma scalar_invert_is_power s :
  crypto_core_ristretto255_scalar_invert s = powmod s (L - 2) L.
Proof.
  rewrite powmod_spec by (vm_compute; discriminate).
  unfold crypto_core_ristretto255_scalar_invert.
  destruct (Z.eq_dec (s mod L) 0) as [H0|Hnz].
  - rewrite <- Z.invmod_mod_l, H0, Z.invmod_0_l.
    rewrite <- Z.mod_pow_l, H0. reflexivity.
  - pose proof (Zmod.fermat_inv (fe s) (Zmod.of_Z_nz s Hnz) L_prime) as E.
    apply (f_equal Zmod.to_Z) in E.
    rewrite Zmod.to_Z_inv, Zmod.to_Z_pow_nonneg_r in E by (vm_compute; discriminate).
    unfold fe in E. rewrite Zmod.to_Z_of_Z, Z.invmod_mod_l, Z.mod_pow_l in E.
    now symmetry.
Qed.

Lemma fe_0 : fe 0 = Zmod.zero.
Proof. apply Zmod.of_Z_0. Qed.

Lemma fe_1 : fe 1 = Zmod.one.
Proof. apply Zmod.of_Z_1. Qed.

Lemma fe_mod x : fe (x mod L) = fe x.
Proof. apply Zmod.of_Z_mod. Qed.

Lemma fe_eq_iff x y : fe x = fe y <-> x mod L = y mod L.
Proof. apply Zmod.of_Z_inj. Qed.

Lemma to_Z_fe x : Zmod.to_Z (fe x) = x mod L.
Proof. apply Zmod.to_Z_of_Z. Qed.

(** Canonical scalars are determined by their field element. *)
Lemma fe_inj_small x y : 0 <= x < L -> 0 <= y < L -> fe x = fe y -> x = y.
Proof.
  intros Hx Hy H. apply fe_eq_iff in H.
  now rewrite !Z.mod_small in H.
Qed.

Lemma scalar_add_range x y : 0 <= crypto_core_ristretto255_scalar_add x y < L.
Proof. apply Z.mod_pos_bound, L_pos. Qed.

Lemma scalar_mul_range x y : 0 <= crypto_core_ristretto255_scalar_mul x y < L.
Proof. apply Z.mod_pos_bound, L_pos. Qed.

(** Distinct bytes are distinct scalars: [L] exceeds 255. *)
Lemma fe_byte_neq i j :
  0 <= i < 256 -> 0 <= j < 256 -> i <> j -> fe j <> fe i.
Proof.
  intros Hi Hj Hne H. apply Hne. symmetry.
  assert (256 < L) by reflexivity.
  apply fe_inj_small; try lia. exact H.
Qed.

Lemma fe_byte_sub_nz i j :
  0 <= i < 256 -> 0 <= j < 256 -> i <> j -> Zmod.sub (fe j) (fe i) <> Zmod.zero.
Proof.
  intros Hi Hj Hne H. apply (fe_byte_neq i j Hi Hj Hne).
  transitivity (Zmod.add (Zmod.sub (fe j) (fe i)) (fe i)); [ring|].
  rewrite H. ring.
Qed.

Lemma fe_byte_nz j : 0 < j < 256 -> fe j <> Zmod.zero.
Proof.
  intros Hj. rewrite <- fe_0. apply fe_byte_neq; lia.
Qed.

(* ===================================================================== *)
(** * Part III: Shamir sharing and Lagrange coefficients *)
(* ===================================================================== *)

(** ** Lagrange interpolation at zero *)

Lemma pdiv_spec a cs x :
  peval cs x =
  Zmod.add (fst (pdiv a cs)) (Zmod.mul (Zmod.sub x a) (peval (snd (pdiv a cs)) x)).
Proof.
  induction cs as [|c rest IH].
  - cbn [pdiv peval fst snd]. ring.
  - destruct rest as [|c' rest'].
    + cbn [pdiv peval fst snd]. ring.
    + change (pdiv a (c :: c' :: rest'))
        with (let '(r, q) := pdiv a (c' :: rest') in
              (Zmod.add c (Zmod.mul a r), r :: q)).
      destruct (pdiv a (c' :: rest')) as [r q].
      cbn [fst snd] in *. cbn [peval] in *. rewrite IH. ring.
Qed.

Lemma pdiv_length a cs : length (snd (pdiv a cs)) = (length cs - 1)%nat.
Proof.
  induction cs as [|c rest IH]; [reflexivity|].
  destruct rest as [|c' rest']; [reflexivity|].
  change (pdiv a (c :: c' :: rest'))
    with (let '(r, q) := pdiv a (c' :: rest') in
          (Zmod.add c (Zmod.mul a r), r :: q)).
  destruct (pdiv a (c' :: rest')) as [r q]. cbn [snd length] in *.
  lia.
Qed.

Lemma interp_ext f g Q P :
  (forall x, f x = g x) -> interp f Q P = interp g Q P.
Proof.
  intros H. induction Q as [|i rest IH]; cbn [interp]; [reflexivity|].
  now rewrite IH, H.
Qed.

Lemma interp_add f g Q P :
  interp (fun x => Zmod.add (f x) (g x)) Q P =
  Zmod.add (interp f Q P) (interp g Q P).
Proof.
  induction Q as [|i rest IH]; cbn [interp]; [ring|]. rewrite IH. ring.
Qed.

Lemma interp_scale c f Q P :
  interp (fun x => Zmod.mul c (f x)) Q P = Zmod.mul c (interp f Q P).
Proof.
  induction Q as [|i rest IH]; cbn [interp]; [ring|]. rewrite IH. ring.
Qed.

Lemma lam_swap i a b P : lam i (a :: b :: P) = lam i (b :: a :: P).
Proof.
  cbn [lam]. destruct (a =? i), (b =? i); try reflexivity. ring.
Qed.

Lemma interp_swap f Q a b P :
  interp f Q (a :: b :: P) = interp f Q (b :: a :: P).
Proof.
  induction Q as [|i rest IH]; [reflexivity|].
  cbn [interp]. now rewrite IH, lam_swap.
Qed.

(** Removing a node [a] against the factor [x - a]. *)
Lemma interp_drop g a Q P :
  is_byte a -> Forall is_byte Q -> ~ In a Q ->
  interp (fun x => Zmod.mul (Zmod.sub x (fe a)) (g x)) Q (a :: P) =
  Zmod.mul (Zmod.opp (fe a)) (interp g Q P).
Proof.
  intros Ha HQ Hin. induction Q as [|i rest IH].
  - cbn [interp]. ring.
  - inversion HQ as [|? ? Hi Hrest]; subst.
    cbn [interp]. rewrite IH; [|assumption|intros H; apply Hin; now right].
    cbn [lam].
    assert (Hne : a <> i) by (intros ->; apply Hin; now left).
    destruct (Z.eqb_spec a i) as [|_]; [contradiction|].
    pose proof (fe_byte_sub_nz i a Hi Ha (not_eq_sym Hne)) as Hnz.
    field. exact Hnz.
Qed.

Lemma interp_drop_head g a P :
  is_byte a -> Forall is_byte P -> ~ In a P ->
  interp (fun x => Zmod.mul (Zmod.sub x (fe a)) (g x)) (a :: P) (a :: P) =
  Zmod.mul (Zmod.opp (fe a)) (interp g P P).
Proof.
  intros Ha HP Hin. cbn [interp].
  rewrite interp_drop by assumption. ring.
Qed.

(** The coefficients of a non-empty set of nodes sum to one. *)
Lemma interp_one n : forall P,
  length P = S n -> Forall is_byte P -> NoDup P ->
  interp (fun _ => Zmod.one) P P = Zmod.one.
Proof.
  induction n as [|n IH]; intros P Hlen HP Hnd.
  - destruct P as [|a [|b zs]]; try discriminate.
    cbn [interp lam]. rewrite Z.eqb_refl. ring.
  - destruct P as [|a [|b zs]]; try discriminate.
    inversion HP as [|? ? Ha HP']; subst.
    inversion HP' as [|? ? Hb Hzs]; subst.
    inversion Hnd as [|? ? Hna Hnd']; subst.
    inversion Hnd' as [|? ? Hnb Hndz]; subst.
    assert (Hab : a <> b) by (intros ->; apply Hna; now left).
    assert (Hnaz : ~ In a zs) by (intros H; apply Hna; now right).
    set (I := interp (fun _ => Zmod.one) (a :: b :: zs) (a :: b :: zs)).
    (* the node [a] against [x - a] *)
    assert (E1 : interp (fun x => Zmod.mul (Zmod.sub x (fe a)) Zmod.one)
                   (a :: b :: zs) (a :: b :: zs) = Zmod.opp (fe a)).
    { rewrite interp_drop_head; try assumption.
      rewrite (IH (b :: zs)); try assumption; [ring|].
      cbn in Hlen |- *. lia. }
    (* the node [b] against [x - b] *)
    assert (E2 : interp (fun x => Zmod.mul (Zmod.sub x (fe b)) Zmod.one)
                   (a :: b :: zs) (a :: b :: zs) = Zmod.opp (fe b)).
    { assert (Hnb' : ~ In b (a :: zs)).
      { intros [->|H]; [now apply Hab|now apply Hnb]. }
      pose proof (interp_drop (fun _ => Zmod.one) b (a :: zs) (a :: zs) Hb
                    (Forall_cons _ Ha Hzs) Hnb') as Hd.
      rewrite (IH (a :: zs)) in Hd;
        [|cbn in Hlen |- *; lia|now constructor|now constructor].
      rewrite interp_swap. cbn [interp] in Hd |- *.
      rewrite <- Zmod.mul_1_r, <- Hd. ring. }
    assert (E : Zmod.mul (Zmod.sub (fe a) (fe b)) I = Zmod.sub (fe a) (fe b)).
    { unfold I. rewrite <- interp_scale.
      rewrite (interp_ext _ (fun x => Zmod.add
                 (Zmod.mul (Zmod.sub x (fe b)) Zmod.one)
                 (Zmod.mul (Zmod.opp Zmod.one) (Zmod.mul (Zmod.sub x (fe a)) Zmod.one))))
        by (intros x; ring).
      rewrite interp_add, interp_scale, E1, E2. ring. }
    pose proof (fe_byte_sub_nz b a Hb Ha (not_eq_sym Hab)) as Hnz.
    apply (Zmod.mul_cancel_l_prime (Zmod.sub (fe a) (fe b))); [apply L_prime|exact Hnz|].
    rewrite E. ring.
Qed.

(** A polynomial of degree below the number of distinct nodes is recovered
    at zero from its values at the nodes. *)
Theorem interpolation_at_zero : forall P cs,
  Forall is_byte P -> NoDup P -> (length cs <= length P)%nat ->
  interp (peval cs) P P = peval cs Zmod.zero.
Proof.
  induction P as [|a ys IH]; intros cs HP Hnd Hlen.
  - destruct cs; [reflexivity|cbn in Hlen; lia].
  - inversion HP as [|? ? Ha Hys]; subst.
    inversion Hnd as [|? ? Hna Hndy]; subst.
    pose proof (pdiv_spec (fe a) cs) as Hdiv.
    pose proof (pdiv_length (fe a) cs) as Hql.
    destruct (pdiv (fe a) cs) as [r q]. cbn [fst snd] in *.
    rewrite (interp_ext _ (fun x => Zmod.add (Zmod.mul r Zmod.one)
               (Zmod.mul (Zmod.sub x (fe a)) (peval q x))))
      by (intros x; rewrite Hdiv; ring).
    rewrite interp_add, interp_scale.
    rewrite (interp_one (length ys)); try assumption; [|reflexivity].
    rewrite interp_drop_head by assumption.
    rewrite IH; try assumption; [|cbn [length] in Hlen; lia].
    rewrite Hdiv. ring.
Qed.

(** ** [coeff] computes the Lagrange coefficient *)

Lemma coeff_loop_lam i : forall P dd dv,
  is_byte i -> Forall is_byte P -> fe dv <> Zmod.zero ->
  fe (snd (coeff_loop i P dd dv)) <> Zmod.zero /\
  Zmod.mdiv (fe (fst (coeff_loop i P dd dv))) (fe (snd (coeff_loop i P dd dv)))
  = Zmod.mul (Zmod.mdiv (fe dd) (fe dv)) (lam i P).
Proof.
  induction P as [|j rest IH]; intros dd dv Hi HP Hdv.
  - cbn [coeff_loop lam fst snd]. split; [exact Hdv|]. field. exact Hdv.
  - inversion HP as [|? ? Hj Hrest]; subst.
    cbn [coeff_loop lam].
    destruct (Z.eqb_spec j i) as [->|Hne].
    + apply IH; assumption.
    + pose proof (fe_byte_sub_nz i j Hi Hj (not_eq_sym Hne)) as Hnz.
      assert (Hdv' : fe (crypto_core_ristretto255_scalar_mul dv
                           (crypto_core_ristretto255_scalar_sub j i)) <> Zmod.zero).
      { rewrite fe_mul, fe_sub. intros H.
        apply (Zmod.mul_0_iff_prime L_prime) in H. destruct H; contradiction. }
      destruct (IH (crypto_core_ristretto255_scalar_mul dd j)
                   (crypto_core_ristretto255_scalar_mul dv
                      (crypto_core_ristretto255_scalar_sub j i)) Hi Hrest Hdv')
        as [Hn Heq].
      split; [exact Hn|]. rewrite Heq, !fe_mul, fe_sub. field. split; assumption.
Qed.

Theorem fe_coeff i P :
  is_byte i -> Forall is_byte P -> fe (coeff i P) = lam i P.
Proof.
  intros Hi HP. unfold coeff.
  assert (H1 : fe 1 <> Zmod.zero).
  { rewrite fe_1. apply Zmod.one_neq_zero. vm_compute. discriminate. }
  destruct (coeff_loop_lam i P 1 1 Hi HP H1) as [Hn Heq].
  destruct (coeff_loop i P 1 1) as [dd dv]. cbn [fst snd] in *.
  rewrite fe_mul, fe_invert, Zmod.mul_inv_l, Heq. field. exact H1.
Qed.

Lemma coeff_range i P : 0 <= coeff i P < L.
Proof.
  unfold coeff. destruct (coeff_loop i P 1 1). apply scalar_mul_range.
Qed.

Lemma fe_lagrange_factor i j :
  fe (lagrange_factor i j) = Zmod.mdiv (fe j) (Zmod.sub (fe j) (fe i)).
Proof.
  unfold lagrange_factor.
  now rewrite fe_mul, fe_invert, fe_sub, Zmod.mul_inv_r.
Qed.

Lemma fe_scalar_prod l :
  fe (scalar_prod l) = fold_right (fun x acc => Zmod.mul (fe x) acc) Zmod.one l.
Proof.
  induction l as [|x rest IH]; cbn [scalar_prod fold_right].
  - apply fe_1.
  - fold (scalar_prod rest). now rewrite fe_mul, IH.
Qed.

Lemma scalar_prod_range l : 0 <= scalar_prod l < L.
Proof.
  destruct l as [|x rest]; cbn [scalar_prod fold_right].
  - split; [lia|reflexivity].
  - apply scalar_mul_range.
Qed.

Lemma fe_lagrange_coefficient i P : fe (lagrange_coefficient i P) = lam i P.
Proof.
  unfold lagrange_coefficient. rewrite fe_scalar_prod.
  induction P as [|j rest IH]; cbn [filter map fold_right lam]; [reflexivity|].
  destruct (j =? i); cbn [negb map fold_right]; [exact IH|].
  now rewrite IH, fe_lagrange_factor.
Qed.

Lemma lam_permutation i P P' : Permutation P P' -> lam i P = lam i P'.
Proof.
  induction 1 as [|x l l' _ IH|x y l|l l' l'' _ IH1 _ IH2].
  - reflexivity.
  - cbn [lam]. now rewrite IH.
  - apply lam_swap.
  - now rewrite IH1.
Qed.

(** Entries equal to [index] are skipped by the loop. *)
Lemma coeff_loop_filter index : forall peers dd dv,
  coeff_loop index (filter (fun j => negb (j =? index)) peers) dd dv
  = coeff_loop index peers dd dv.
Proof.
  induction peers as [|j rest IH]; intros dd dv; [reflexivity|].
  cbn [filter coeff_loop].
  destruct (j =? index) eqn:E; cbn [negb].
  - apply IH.
  - cbn [coeff_loop]. rewrite E. apply IH.
Qed.

Lemma coeff_loop_app index : forall p1 p2 dd dv,
  coeff_loop index (p1 ++ p2) dd dv =
  coeff_loop index p2 (fst (coeff_loop index p1 dd dv))
                      (snd (coeff_loop index p1 dd dv)).
Proof.
  induction p1 as [|j rest IH]; intros p2 dd dv; [reflexivity|].
  cbn [app coeff_loop]. destruct (j =? index); apply IH.
Qed.

(** ** The share values are the values of the polynomial *)

Lemma fe_poly_terms x : forall a m, 0 <= m ->
  fe (poly_terms a m x)
  = Zmod.mul (Zmod.pow (fe x) m) (peval (map fe a) (fe x)).
Proof.
  induction a as [|am rest IH]; intros m Hm; cbn [poly_terms map peval].
  - rewrite fe_0. ring.
  - unfold fe at 1. rewrite Zmod.of_Z_add, Zmod.of_Z_mul, Zmod.of_Z_pow by lia.
    fold (fe am) (fe x) (fe (poly_terms rest (m + 1) x)).
    rewrite IH by lia.
    replace (m + 1) with (Z.succ m) by lia.
    rewrite Zmod.pow_succ_nonneg_r by lia. ring.
Qed.

Lemma fe_share_polynomial s a x :
  fe (share_polynomial s a x) = peval (fe s :: map fe a) (fe x).
Proof.
  unfold share_polynomial. rewrite fe_mod. unfold fe at 1.
  rewrite Zmod.of_Z_add. fold (fe s) (fe (poly_terms a 1 x)).
  rewrite fe_poly_terms by lia. rewrite Zmod.pow_1_r. reflexivity.
Qed.

Lemma fe_iter_scalar_mul x j t0 :
  fe (Nat.iter j (fun tmp => crypto_core_ristretto255_scalar_mul tmp x) t0)
  = Zmod.mul (fe t0) (Zmod.pow (fe x) (Z.of_nat j)).
Proof.
  induction j as [|j IH].
  - change (Nat.iter 0 _ t0) with t0. rewrite Zmod.pow_0_r. ring.
  - rewrite Nat.iter_succ, fe_mul, IH, Nat2Z.inj_succ.
    rewrite Zmod.pow_succ_nonneg_r by lia. ring.
Qed.

Lemma fe_share_value_loop x : forall a j value,
  fe (share_value_loop x a j value)
  = Zmod.add (fe value)
      (Zmod.mul (Zmod.pow (fe x) (Z.of_nat j + 1)) (peval (map fe a) (fe x))).
Proof.
  induction a as [|aj rest IH]; intros j value; cbn [share_value_loop map peval].
  - ring.
  - rewrite IH, fe_add, fe_iter_scalar_mul, fe_mul, Nat2Z.inj_succ.
    replace (Z.succ (Z.of_nat j) + 1) with (Z.succ (Z.succ (Z.of_nat j))) by lia.
    replace (Z.of_nat j + 1) with (Z.succ (Z.of_nat j)) by lia.
    rewrite !Zmod.pow_succ_nonneg_r by lia. ring.
Qed.

Lemma share_value_loop_reduced x a j value :
  a <> [] -> 0 <= share_value_loop x a j value < L.
Proof.
  revert j value. induction a as [|aj rest IH]; intros j value Hne; [contradiction|].
  cbn [share_value_loop]. destruct rest as [|aj' rest'].
  - cbn [share_value_loop]. apply scalar_add_range.
  - apply IH. discriminate.
Qed.

(** The value written for the index [x] is [f(x)]. *)
Theorem share_value_is_polynomial s a x :
  a <> [] \/ 0 <= s < L ->
  share_value_loop x a 0 s = share_polynomial s a x.
Proof.
  intros H. apply fe_inj_small.
  - destruct a as [|aj rest].
    + destruct H as [H|H]; [contradiction|exact H].
    + apply share_value_loop_reduced. discriminate.
  - apply Z.mod_pos_bound, L_pos.
  - rewrite fe_share_value_loop, fe_share_polynomial.
    cbn [peval Z.of_nat Z.add]. rewrite Zmod.pow_1_r. reflexivity.
Qed.

(** ** Reconstruction in the scalar field *)

Lemma fe_scalar_sum l :
  fe (scalar_sum l) = fold_right (fun x acc => Zmod.add (fe x) acc) Zmod.zero l.
Proof.
  induction l as [|x rest IH]; cbn [scalar_sum fold_right].
  - apply fe_0.
  - fold (scalar_sum rest). now rewrite fe_add, IH.
Qed.

Lemma scalar_sum_range l : 0 <= scalar_sum l < L.
Proof.
  destruct l as [|x rest]; cbn [scalar_sum fold_right].
  - split; [lia|reflexivity].
  - apply scalar_add_range.
Qed.

Lemma fe_reconstruct_terms cs P shares : forall Q,
  Forall is_byte P -> Forall is_byte Q ->
  (forall i, In i Q -> fe (share_value (share_at shares i)) = peval cs (fe i)) ->
  fe (scalar_sum
        (map (fun i => crypto_core_ristretto255_scalar_mul (coeff i P)
                         (share_value (share_at shares i))) Q))
  = interp (peval cs) Q P.
Proof.
  intros Q HP HQ Hval. rewrite fe_scalar_sum.
  induction Q as [|i rest IH]; cbn [map fold_right interp]; [reflexivity|].
  inversion HQ as [|? ? Hi Hrest]; subst.
  rewrite IH; [|assumption|intros k Hk; apply Hval; now right].
  rewrite fe_mul, fe_coeff by assumption.
  rewrite Hval by now left. ring.
Qed.

(** Any set of more distinct indexes than the polynomial has coefficients
    after the constant one recovers the constant term. *)
Theorem reconstruct_polynomial s a P shares :
  0 <= s < L -> Forall is_byte P -> NoDup P -> (length a < length P)%nat ->
  (forall i, In i P -> share_value (share_at shares i) = share_polynomial s a i) ->
  reconstruct P shares = s.
Proof.
  intros Hs HP Hnd Hlen Hval.
  apply fe_inj_small; [apply scalar_sum_range|exact Hs|].
  unfold reconstruct.
  rewrite (fe_reconstruct_terms (fe s :: map fe a) P shares P HP HP).
  - rewrite interpolation_at_zero; try assumption.
    + cbn [peval]. ring.
    + cbn [length]. rewrite length_map. lia.
  - intros i Hi. rewrite (Hval i Hi). apply fe_share_polynomial.
Qed.

(** ** [toprf_create_shares] *)

Lemma length_list_set {A} (l : list A) : forall k v,
  length (list_set l k v) = length l.
Proof.
  induction l as [|x r IH]; intros [|k] v; cbn [list_set length]; auto.
Qed.

Lemma nth_list_set_eq {A} (l : list A) : forall k v d,
  (k < length l)%nat -> nth k (list_set l k v) d = v.
Proof.
  induction l as [|x r IH]; intros [|k] v d Hk; cbn [length] in Hk; try lia.
  - reflexivity.
  - cbn [list_set nth]. apply IH. lia.
Qed.

Lemma nth_list_set_neq {A} (l : list A) : forall k k' v d,
  k <> k' -> nth k' (list_set l k v) d = nth k' l d.
Proof.
  induction l as [|x r IH]; intros [|k] [|k'] v d Hk; cbn [list_set nth];
    try reflexivity; try contradiction.
  apply IH. congruence.
Qed.

Lemma sample_coefficients_spec rand : forall count calls,
  sample_coefficients rand calls count
  = (map rand (seq calls count), (calls + count)%nat).
Proof.
  induction count as [|count IH]; intros calls; cbn [sample_coefficients seq map].
  - now rewrite Nat.add_0_r.
  - rewrite IH. f_equal. lia.
Qed.

(** The loop, entered at [i] with [k] indexes to go, returns when
    [n <= 254]: the counter never wraps. *)
Lemma shares_loop_spec secret n a : forall k i shares fuel,
  n <= 254 -> 1 <= i -> i + Z.of_nat k = n + 1 ->
  length shares = Z.to_nat n -> (k < fuel)%nat ->
  exists shares',
    shares_loop fuel secret n a i shares = Returned shares' /\
    length shares' = Z.to_nat n /\
    (forall m, i <= m <= n ->
       share_at shares' m = mkShare m (share_value_loop m a 0 secret)) /\
    (forall m, 1 <= m < i -> share_at shares' m = share_at shares m).
Proof.
  induction k as [|k IH]; intros i shares fuel Hn Hi Hk Hlen Hfuel.
  - destruct fuel as [|fuel]; [lia|]. cbn [shares_loop].
    destruct (Z.leb_spec i n) as [|_]; [lia|].
    exists shares. repeat split; try assumption. intros; lia.
  - destruct fuel as [|fuel]; [lia|]. cbn [shares_loop].
    destruct (Z.leb_spec i n) as [_|]; [|lia].
    unfold store. rewrite Hlen.
    replace ((0 <=? i - 1) && (i - 1 <? Z.of_nat (Z.to_nat n))) with true
      by (symmetry; apply andb_true_intro; split;
          [apply Z.leb_le|apply Z.ltb_lt]; lia).
    rewrite Z.mod_small by lia.
    set (v := mkShare i (share_value_loop i a 0 secret)).
    destruct (IH (i + 1) (list_set shares (Z.to_nat (i - 1)) v) fuel)
      as (shares' & Hret & Hlen' & Hnew & Hold); try lia.
    { now rewrite length_list_set. }
    exists shares'. split; [exact Hret|]. split; [exact Hlen'|]. split.
    + intros m Hm. destruct (Z.eq_dec m i) as [->|Hne].
      * rewrite Hold by lia. unfold share_at.
        apply nth_list_set_eq. lia.
      * apply Hnew. lia.
    + intros m Hm. rewrite Hold by lia. unfold share_at.
      apply nth_list_set_neq. lia.
Qed.

(** For [n <= 254] the call returns: [threshold - 1] random scalars are
    drawn and the share of index [i] holds [i] and [f(i)]. *)
Theorem toprf_create_shares_spec fuel rand calls secret n threshold shares0 :
  2 <= threshold <= n -> n <= 254 ->
  length shares0 = Z.to_nat n -> (Z.to_nat n < fuel)%nat ->
  let a := map rand (seq calls (Z.to_nat (threshold - 1))) in
  exists shares,
    toprf_create_shares fuel rand calls secret n threshold shares0
    = Returned (shares, (calls + Z.to_nat (threshold - 1))%nat) /\
    length shares = Z.to_nat n /\
    length a = Z.to_nat (threshold - 1) /\
    forall i, 1 <= i <= n ->
      share_at shares i = mkShare i (share_polynomial secret a i).
Proof.
  intros Ht Hn Hlen Hfuel a.
  unfold toprf_create_shares. rewrite sample_coefficients_spec. fold a.
  destruct (shares_loop_spec secret n a (Z.to_nat n) 1 shares0 fuel)
    as (shares & Hret & Hlen' & Hnew & _); try lia.
  rewrite Hret. exists shares. split; [reflexivity|]. split; [exact Hlen'|].
  assert (Hla : length a = Z.to_nat (threshold - 1)).
  { unfold a. now rewrite length_map, length_seq. }
  split; [exact Hla|].
  intros i Hi. rewrite (Hnew i Hi). f_equal.
  apply share_value_is_polynomial. left.
  intros E. rewrite E in Hla. cbn [length] in Hla. lia.
Qed.

(** With [n = 255] the counter wraps from 255 to 0 and [shares[-1]] is
    written: no amount of fuel makes the loop return. *)
Lemma shares_loop_255 secret a : forall fuel i shares,
  0 <= i <= 255 ->
  shares_loop fuel secret 255 a i shares = OutOfBounds \/
  shares_loop fuel secret 255 a i shares = OutOfFuel.
Proof.
  induction fuel as [|fuel IH]; intros i shares Hi; [now right|].
  cbn [shares_loop].
  destruct (Z.leb_spec i 255) as [_|]; [|lia].
  destruct (store shares (i - 1) _) as [shares'|]; [|now left].
  apply IH. pose proof (Z.mod_pos_bound (i + 1) 256 eq_refl). lia.
Qed.

(** Whatever the loop returns holds the shares, whatever the length of
    the array; with [n = 255] it returns nothing. *)
Lemma shares_loop_returned secret n a : forall fuel i shares shares',
  n <= 255 -> 1 <= i ->
  shares_loop fuel secret n a i shares = Returned shares' ->
  (forall m, i <= m <= n ->
     share_at shares' m = mkShare m (share_value_loop m a 0 secret)) /\
  (forall m, 1 <= m < i -> share_at shares' m = share_at shares m).
Proof.
  induction fuel as [|fuel IH]; intros i shares shares' Hn Hi Hret;
    [discriminate|].
  cbn [shares_loop] in Hret.
  destruct (Z.leb_spec i n) as [Hle|Hgt].
  - set (v := mkShare i (share_value_loop i a 0 secret)) in *.
    unfold store in Hret.
    destruct ((0 <=? i - 1) && (i - 1 <? Z.of_nat (length shares))) eqn:Hb;
      [|discriminate].
    apply andb_prop in Hb. destruct Hb as [_ Hb]. apply Z.ltb_lt in Hb.
    destruct (Z.eq_dec i 255) as [->|Hne].
    + (* the counter wraps *)
      assert (n = 255) by lia. subst n.
      change ((255 + 1) mod 256) with 0 in Hret.
      destruct (shares_loop_255 secret a fuel 0
                  (list_set shares (Z.to_nat (255 - 1)) v) ltac:(lia))
        as [E|E]; rewrite E in Hret; discriminate.
    + rewrite Z.mod_small in Hret by lia.
      destruct (IH (i + 1) _ _ Hn ltac:(lia) Hret) as [Hnew Hold].
      split.
      * intros m Hm. destruct (Z.eq_dec m i) as [->|Hmi].
        -- rewrite Hold by lia. unfold share_at. apply nth_list_set_eq. lia.
        -- apply Hnew. lia.
      * intros m Hm. rewrite Hold by lia. unfold share_at.
        apply nth_list_set_neq. lia.
  - injection Hret as <-. split; intros; [lia|reflexivity].
Qed.

Lemma toprf_create_shares_returned fuel rand calls secret n threshold shares0
    shares calls' :
  2 <= threshold -> n <= 255 ->
  toprf_create_shares fuel rand calls secret n threshold shares0
  = Returned (shares, calls') ->
  let a := map rand (seq calls (Z.to_nat (threshold - 1))) in
  calls' = (calls + Z.to_nat (threshold - 1))%nat /\
  length a = Z.to_nat (threshold - 1) /\
  forall i, 1 <= i <= n ->
    share_at shares i = mkShare i (share_polynomial secret a i).
Proof.
  intros Ht Hn Hret a. unfold toprf_create_shares in Hret.
  rewrite sample_coefficients_spec in Hret. fold a in Hret.
  destruct (shares_loop fuel secret n a 1 shares0) as [sh| |] eqn:Hloop;
    try discriminate.
  injection Hret as -> <-.
  assert (Hla : length a = Z.to_nat (threshold - 1)).
  { unfold a. now rewrite length_map, length_seq. }
  split; [reflexivity|]. split; [exact Hla|].
  destruct (shares_loop_returned _ _ _ _ 1 _ _ Hn ltac:(lia) Hloop) as [Hnew _].
  intros i Hi. rewrite (Hnew i Hi). f_equal.
  apply share_value_is_polynomial. left.
  intros E. rewrite E in Hla. cbn [length] in Hla. lia.
Qed.

(* ===================================================================== *)
(** * Part IV: the group *)
(* ===================================================================== *)

Section GroupFacts.
Context {R : Ristretto255}.

Lemma ge25519_add_0_r p : ge25519_add p ge25519_p3_0 = p.
Proof. rewrite ge25519_add_comm. apply ge25519_add_0_l. Qed.

Lemma ristretto255_frombytes_0 :
  ristretto255_frombytes 0 = Some ge25519_p3_0.
Proof. rewrite <- ristretto255_tobytes_0. apply ristretto255_frombytes_tobytes. Qed.

Lemma ristretto255_tobytes_inj p q :
  ristretto255_p3_tobytes p = ristretto255_p3_tobytes q -> p = q.
Proof.
  intros H. apply (f_equal ristretto255_frombytes) in H.
  rewrite !ristretto255_frombytes_tobytes in H. now injection H.
Qed.

Lemma ristretto255_tobytes_eq_0 p :
  ristretto255_p3_tobytes p = 0 <-> p = ge25519_p3_0.
Proof.
  split.
  - intros H. apply ristretto255_tobytes_inj.
    now rewrite ristretto255_tobytes_0.
  - intros ->. apply ristretto255_tobytes_0.
Qed.

Lemma ge25519_scalarmult_add a b p : 0 <= a -> 0 <= b ->
  ge25519_scalarmult (a + b) p
  = ge25519_add (ge25519_scalarmult a p) (ge25519_scalarmult b p).
Proof.
  intros Ha Hb. revert a Ha. apply natlike_ind.
  - rewrite Z.add_0_l, ge25519_scalarmult_0. symmetry. apply ge25519_add_0_l.
  - intros a Ha IH.
    replace (Z.succ a + b) with ((a + b) + 1) by lia.
    replace (Z.succ a) with (a + 1) by lia.
    rewrite !ge25519_scalarmult_succ by lia.
    rewrite IH. apply ge25519_add_assoc.
Qed.

Lemma ge25519_scalarmult_0_r a : 0 <= a ->
  ge25519_scalarmult a ge25519_p3_0 = ge25519_p3_0.
Proof.
  revert a. apply natlike_ind.
  - apply ge25519_scalarmult_0.
  - intros a Ha IH. replace (Z.succ a) with (a + 1) by lia.
    rewrite ge25519_scalarmult_succ by lia.
    rewrite IH. apply ge25519_add_0_l.
Qed.

Lemma ge25519_scalarmult_mul a b p : 0 <= a -> 0 <= b ->
  ge25519_scalarmult (a * b) p
  = ge25519_scalarmult a (ge25519_scalarmult b p).
Proof.
  intros Ha Hb. revert a Ha. apply natlike_ind.
  - now rewrite Z.mul_0_l, !ge25519_scalarmult_0.
  - intros a Ha IH.
    replace (Z.succ a * b) with (b + a * b) by lia.
    replace (Z.succ a) with (a + 1) by lia.
    rewrite ge25519_scalarmult_add by nia.
    rewrite ge25519_scalarmult_succ by lia. now rewrite IH.
Qed.

(** Multiples depend on the scalar modulo [L] only. *)
Lemma ge25519_scalarmult_mod a p : 0 <= a ->
  ge25519_scalarmult (a mod L) p = ge25519_scalarmult a p.
Proof.
  intros Ha. pose proof L_pos as HL.
  pose proof (Z.mod_pos_bound a L HL).
  assert (0 <= a / L) by (apply Z.div_pos; lia).
  rewrite (Z.div_mod a L) at 2 by lia.
  rewrite ge25519_scalarmult_add by nia.
  rewrite (Z.mul_comm L), ge25519_scalarmult_mul by lia.
  rewrite ge25519_scalarmult_L, ge25519_scalarmult_0_r by lia.
  symmetry. apply ge25519_add_0_l.
Qed.

Lemma ge25519_scalarmult_1 p : ge25519_scalarmult 1 p = p.
Proof.
  change 1 with (0 + 1). rewrite ge25519_scalarmult_succ by lia.
  rewrite ge25519_scalarmult_0. apply ge25519_add_0_r.
Qed.

(** The group has prime order: a multiple is the identity only for the
    identity or for a scalar that is zero modulo [L]. *)
Lemma ge25519_scalarmult_eq_0 c p : 0 <= c ->
  ge25519_scalarmult c p = ge25519_p3_0 <->
  p = ge25519_p3_0 \/ c mod L = 0.
Proof.
  intros Hc. split.
  - intros H.
    destruct (Z.eq_dec (c mod L) 0) as [|Hnz]; [now right|left].
    pose proof (Z.invmod_prime c L L_prime Hnz) as Hinv.
    set (u := Z.invmod c L) in *.
    assert (Hu : 0 <= u).
    { unfold u. rewrite <- Z.mod_invmod. apply Z.mod_pos_bound, L_pos. }
    rewrite <- (ge25519_scalarmult_1 p), <- Hinv.
    rewrite ge25519_scalarmult_mod by nia.
    rewrite ge25519_scalarmult_mul by lia.
    rewrite H. now apply ge25519_scalarmult_0_r.
  - intros [->|H].
    + now apply ge25519_scalarmult_0_r.
    + rewrite <- ge25519_scalarmult_mod, H by lia. apply ge25519_scalarmult_0.
Qed.

Lemma ge25519_sum_scalarmult p : forall cs,
  Forall (fun c => 0 <= c) cs ->
  ge25519_sum (map (fun c => ge25519_scalarmult c p) cs)
  = ge25519_scalarmult (fold_right Z.add 0 cs) p /\
  0 <= fold_right Z.add 0 cs.
Proof.
  induction 1 as [|c cs Hc _ [IH Hnn]]; cbn [map ge25519_sum fold_right].
  - split; [now rewrite ge25519_scalarmult_0|lia].
  - split; [|lia]. rewrite IH, ge25519_scalarmult_add by lia.
    apply ge25519_add_comm.
Qed.

(** ** [toprf_thresholdcombine] *)

Lemma thresholdcombine_loop_spec : forall responses result acc,
  ristretto255_frombytes result = Some acc ->
  thresholdcombine_loop responses result
  = ristretto255_p3_tobytes
      (ge25519_add acc (ge25519_sum (decode_valid (map part_value responses)))).
Proof.
  induction responses as [|r rest IH]; intros result acc Hacc;
    cbn [thresholdcombine_loop map decode_valid ge25519_sum].
  - rewrite ge25519_add_0_r. symmetry.
    now apply ristretto255_tobytes_frombytes.
  - unfold crypto_core_ristretto255_add. rewrite Hacc.
    destruct (ristretto255_frombytes (part_value r)) as [q|].
    + rewrite (IH _ (ge25519_add acc q))
        by apply ristretto255_frombytes_tobytes.
      cbn [ge25519_sum]. f_equal.
      rewrite <- ge25519_add_assoc. f_equal. apply ge25519_add_comm.
    + now apply IH.
Qed.

Theorem toprf_thresholdcombine_spec responses :
  toprf_thresholdcombine responses
  = ristretto255_p3_tobytes
      (ge25519_sum (decode_valid (map part_value responses))).
Proof.
  unfold toprf_thresholdcombine.
  rewrite (thresholdcombine_loop_spec _ _ _ ristretto255_frombytes_0).
  now rewrite ge25519_add_0_l.
Qed.

Lemma decode_valid_tobytes ps :
  decode_valid (map ristretto255_p3_tobytes ps) = ps.
Proof.
  induction ps as [|p rest IH]; cbn [map decode_valid]; [reflexivity|].
  now rewrite ristretto255_frombytes_tobytes, IH.
Qed.
End GroupFacts.

Lemma scalar_sum_mod l : scalar_sum l = fold_right Z.add 0 l mod L.
Proof.
  induction l as [|x rest IH]; cbn [scalar_sum fold_right]; [reflexivity|].
  fold (scalar_sum rest). unfold crypto_core_ristretto255_scalar_add.
  now rewrite IH, Zplus_mod_idemp_r.
Qed.

Lemma lam_nz i : forall P,
  is_byte i -> Forall (fun j => 0 < j < 256) P -> lam i P <> Zmod.zero.
Proof.
  induction P as [|j rest IH]; intros Hi HP; cbn [lam].
  - apply Zmod.one_neq_zero. vm_compute. discriminate.
  - inversion HP as [|? ? Hj Hrest]; subst.
    destruct (Z.eqb_spec j i) as [|Hne]; [now apply IH|].
    intros H. apply (Zmod.mul_0_iff_prime L_prime) in H.
    destruct H as [H|H]; [|now apply (IH Hi Hrest)].
    rewrite <- Zmod.mul_inv_r in H.
    apply (Zmod.mul_0_iff_prime L_prime) in H. destruct H as [H|H].
    + now apply (fe_byte_nz j Hj).
    + revert H. apply Zmod.inv_nz_prime; [apply L_prime|].
      apply fe_byte_sub_nz; [exact Hi|lia|congruence].
Qed.

(** On non-zero index bytes the coefficient is not zero. *)
Lemma coeff_nz i P :
  is_byte i -> Forall (fun j => 0 < j < 256) P -> coeff i P mod L <> 0.
Proof.
  intros Hi HP H.
  apply (lam_nz i P Hi HP).
  rewrite <- fe_coeff; [|exact Hi|].
  - rewrite <- fe_0. apply fe_eq_iff. now rewrite H.
  - eapply Forall_impl; [|exact HP]. unfold is_byte. intros; lia.
Qed.

(** A zero index byte other than [i] makes the coefficient of [i] zero. *)
Lemma coeff_0 i P :
  is_byte i -> Forall is_byte P -> In 0 P -> i <> 0 -> coeff i P = 0.
Proof.
  intros Hi HP Hin Hne.
  apply fe_inj_small; [apply coeff_range|split; [lia|reflexivity]|].
  rewrite fe_coeff, fe_0 by assumption. clear HP.
  induction P as [|j rest IH]; [destruct Hin|]. cbn [lam].
  destruct Hin as [->|Hin].
  - destruct (Z.eqb_spec 0 i) as [|_]; [congruence|]. rewrite fe_0.
    rewrite <- Zmod.mul_inv_r. ring.
  - destruct (j =? i); [now apply IH|]. rewrite IH by assumption. ring.
Qed.

Lemma lam_eq_0 i : forall P,
  is_byte i -> Forall is_byte P -> lam i P = Zmod.zero -> In 0 P /\ i <> 0.
Proof.
  induction P as [|j rest IH]; intros Hi HP H; cbn [lam] in H.
  - exfalso. revert H. apply Zmod.one_neq_zero. vm_compute. discriminate.
  - inversion HP as [|? ? Hj Hrest]; subst.
    destruct (Z.eqb_spec j i) as [|Hne].
    + destruct (IH Hi Hrest H) as [Hin Hnz]. split; [now right|exact Hnz].
    + apply (Zmod.mul_0_iff_prime L_prime) in H. destruct H as [H|H].
      * rewrite <- Zmod.mul_inv_r in H.
        apply (Zmod.mul_0_iff_prime L_prime) in H. destruct H as [H|H].
        -- assert (j = 0).
           { apply fe_inj_small; [unfold is_byte in Hj; split; [lia|]
                                 |split; [lia|reflexivity]|now rewrite fe_0].
             assert (256 < L) by reflexivity. unfold is_byte in Hj. lia. }
           subst j. split; [now left|congruence].
        -- exfalso. revert H. apply Zmod.inv_nz_prime; [apply L_prime|].
           apply fe_byte_sub_nz; [exact Hi|exact Hj|congruence].
      * destruct (IH Hi Hrest H) as [Hin Hnz]. split; [now right|exact Hnz].
Qed.

(** On index bytes the coefficient of [i] is zero exactly when a zero byte
    stands in [P] next to a non-zero [i]. *)
Lemma coeff_eq_0_iff i P :
  is_byte i -> Forall is_byte P -> (coeff i P = 0 <-> In 0 P /\ i <> 0).
Proof.
  intros Hi HP. split.
  - intros H. apply (lam_eq_0 i P Hi HP).
    rewrite <- fe_coeff, H by assumption. apply fe_0.
  - intros [Hin Hne]. now apply coeff_0.
Qed.

(** ** The exponent is reconstructed *)

Lemma shares_reconstruct fuel rand calls s n t shares0 shares calls' P :
  0 <= s < L -> 2 <= t <= n -> n <= 255 ->
  toprf_create_shares fuel rand calls s n t shares0 = Returned (shares, calls') ->
  NoDup P -> Forall (fun i => 1 <= i <= n) P -> Z.of_nat (length P) = t ->
  reconstruct P shares = s.
Proof.
  intros Hs Ht Hn Hret Hnd HP Hlen.
  destruct (toprf_create_shares_returned _ _ _ _ _ _ _ _ _
              (proj1 Ht) Hn Hret) as (_ & Hla & Hval).
  apply (reconstruct_polynomial s (map rand (seq calls (Z.to_nat (t - 1)))) P shares Hs).
  - eapply Forall_impl; [|exact HP]. unfold is_byte. intros; lia.
  - exact Hnd.
  - rewrite Hla. lia.
  - intros i Hi. rewrite Forall_forall in HP.
    now rewrite (Hval i (HP i Hi)).
Qed.

Section Claims.
Context {R : Ristretto255}.

(** ** [toprf_Evaluate] *)

Lemma toprf_Evaluate_valid k blinded self indexes Z_ A :
  ristretto255_frombytes blinded = Some A ->
  toprf_Evaluate k blinded self indexes Z_
  = (0, mkPart (part_index Z_)
          (ristretto255_p3_tobytes
             (ge25519_scalarmult
                (crypto_core_ristretto255_scalar_mul (share_value k)
                   (coeff self indexes)) A))).
Proof.
  intros HA. unfold toprf_Evaluate, oprf_Evaluate. now rewrite HA.
Qed.

Lemma is_valid_point_decodes p :
  crypto_core_ristretto255_is_valid_point p = true ->
  exists A, ristretto255_frombytes p = Some A.
Proof.
  unfold crypto_core_ristretto255_is_valid_point.
  destruct (ristretto255_frombytes p) as [A|]; [now exists A|discriminate].
Qed.

Lemma exponent_sum A (g : Z -> Z) (P : list Z) s :
  Forall (fun i => 0 <= g i) P ->
  scalar_sum (map g P) = s -> 0 <= s < L ->
  ge25519_sum (map (fun i => ge25519_scalarmult (g i) A) P)
  = ge25519_scalarmult s A.
Proof.
  intros Hnn Hsum Hs.
  assert (Hnn' : Forall (fun c => 0 <= c) (map g P)).
  { rewrite Forall_map. exact Hnn. }
  destruct (ge25519_sum_scalarmult A _ Hnn') as [E Hpos].
  rewrite map_map in E. rewrite E.
  rewrite <- ge25519_scalarmult_mod by exact Hpos.
  now rewrite <- scalar_sum_mod, Hsum.
Qed.

(** ** [toprf_thresholdmult] *)

(** When the scalar multiplication is rejected. *)
Lemma crypto_scalarmult_ristretto255_fails q n p :
  0 <= n < L ->
  fst (crypto_scalarmult_ristretto255 q n p) <> 0 <->
  crypto_core_ristretto255_is_valid_point p = false \/ p = 0 \/ n = 0.
Proof.
  intros Hn. assert (HL : L < 2 ^ 255) by reflexivity.
  unfold crypto_scalarmult_ristretto255, crypto_core_ristretto255_is_valid_point.
  destruct (ristretto255_frombytes p) as [V|] eqn:HV; cbn [fst].
  - rewrite (Z.mod_small n) by lia.
    pose proof (ristretto255_tobytes_frombytes _ _ HV) as Hp.
    destruct (Z.eqb_spec (ristretto255_p3_tobytes (ge25519_scalarmult n V)) 0)
      as [E|E].
    + split; [intros _|intros _; lia].
      apply ristretto255_tobytes_eq_0 in E.
      apply ge25519_scalarmult_eq_0 in E; [|lia].
      destruct E as [->|E].
      * right; left. rewrite <- Hp. apply ristretto255_tobytes_0.
      * right; right. rewrite Z.mod_small in E; lia.
    + split; [intros H; now elim H|].
      intros [H|[H|H]]; [discriminate| |]; exfalso; apply E;
        apply ristretto255_tobytes_eq_0, ge25519_scalarmult_eq_0; try lia.
      * left. apply ristretto255_tobytes_inj.
        now rewrite Hp, ristretto255_tobytes_0.
      * right. subst n. reflexivity.
  - split; [intros _; now left|intros _; lia].
Qed.

Lemma thresholdmult_loop_fails indexes : forall responses result,
  fst (thresholdmult_loop indexes responses result) <> 0 <->
  Exists (rejected indexes) responses.
Proof.
  induction responses as [|r rest IH]; intros result; cbn [thresholdmult_loop].
  - cbn [fst]. split; [intros H; now elim H|intros H; inversion H].
  - pose proof (crypto_scalarmult_ristretto255_fails 0
                  (coeff (part_index r) indexes) (part_value r)
                  (coeff_range _ _)) as Hf.
    destruct (crypto_scalarmult_ristretto255 0 _ (part_value r)) as [rc gki].
    cbn [fst] in Hf.
    destruct (Z.eqb_spec rc 0) as [->|Hrc].
    + destruct (crypto_core_ristretto255_add result result gki) as [rc' result'].
      rewrite IH. split.
      * intros H. now apply Exists_cons_tl.
      * intros H. inversion H as [? ? Hr|? ? Hr]; subst; [|exact Hr].
        apply Hf in Hr. now elim Hr.
    + cbn [fst]. split; [intros _|intros _; lia].
      apply Exists_cons_hd. now apply Hf.
Qed.

Lemma thresholdmult_loop_rc indexes : forall responses result,
  fst (thresholdmult_loop indexes responses result) = 0 \/
  fst (thresholdmult_loop indexes responses result) = 1.
Proof.
  induction responses as [|r rest IH]; intros result;
    cbn [thresholdmult_loop]; [now left|].
  destruct (crypto_scalarmult_ristretto255 0 _ (part_value r)) as [rc gki].
  destruct (rc =? 0); [|now right].
  destruct (crypto_core_ristretto255_add result result gki) as [rc' result'].
  apply IH.
Qed.

(** The loop on parts that hold multiples of one element. *)
Lemma thresholdmult_loop_raw indexes A (f : Z -> Z) : forall Q result acc,
  ristretto255_frombytes result = Some acc ->
  Forall (fun i => 0 <= f i /\ coeff i indexes mod L <> 0 /\
            ge25519_scalarmult (f i) A <> ge25519_p3_0) Q ->
  thresholdmult_loop indexes
    (map (fun i => mkPart i (ristretto255_p3_tobytes (ge25519_scalarmult (f i) A))) Q)
    result
  = (0, ristretto255_p3_tobytes
          (ge25519_add acc
             (ge25519_sum
                (map (fun i => ge25519_scalarmult
                        (crypto_core_ristretto255_scalar_mul (coeff i indexes) (f i)) A)
                   Q)))).
Proof.
  assert (HL : L < 2 ^ 255) by reflexivity.
  induction Q as [|i rest IH]; intros result acc Hacc HQ;
    cbn [map thresholdmult_loop ge25519_sum part_index part_value].
  - rewrite ge25519_add_0_r. f_equal. symmetry.
    now apply ristretto255_tobytes_frombytes.
  - inversion HQ as [|? ? (Hf & Hc & Hnz) Hrest]; subst.
    pose proof (coeff_range i indexes) as Hcr.
    unfold crypto_scalarmult_ristretto255.
    rewrite ristretto255_frombytes_tobytes.
    rewrite (Z.mod_small (coeff i indexes)) by lia.
    rewrite <- ge25519_scalarmult_mul by lia.
    set (m := ge25519_scalarmult (coeff i indexes * f i) A).
    assert (Hm : m = ge25519_scalarmult
                       (crypto_core_ristretto255_scalar_mul (coeff i indexes) (f i)) A).
    { unfold crypto_core_ristretto255_scalar_mul.
      rewrite ge25519_scalarmult_mod; [reflexivity|nia]. }
    assert (Hmnz : ristretto255_p3_tobytes m <> 0).
    { intros E. apply ristretto255_tobytes_eq_0 in E. unfold m in E.
      rewrite ge25519_scalarmult_mul in E by lia.
      apply ge25519_scalarmult_eq_0 in E; [|lia].
      destruct E as [E|E]; [now apply Hnz|now apply Hc]. }
    destruct (Z.eqb_spec (ristretto255_p3_tobytes m) 0) as [|_]; [contradiction|].
    cbn [Z.eqb]. unfold crypto_core_ristretto255_add.
    rewrite Hacc, ristretto255_frombytes_tobytes.
    rewrite (IH _ (ge25519_add acc m))
      by (try apply ristretto255_frombytes_tobytes; assumption).
    f_equal. f_equal. rewrite <- Hm.
    rewrite <- ge25519_add_assoc. f_equal. apply ge25519_add_comm.
Qed.
End Claims.

(* ===================================================================== *)
(** * Part V: the claims *)
(* ===================================================================== *)

Lemma example_shares_created :
  toprf_create_shares 4 example_rand 0 42 3 2 (example_buffer 3)
  = Returned (example_shares, 1%nat).
Proof. vm_compute. reflexivity. Qed.

(** ** C1, C6: [toprf_create_shares] *)

(** X1 (C1 for [n] up to 254): for [t] in [2, n] the call returns,
    and every [t] distinct indexes of [1..n] recover the secret: the sum
    over [i] in [P] of [coeff(i, P)] times the value of share [i] is [s]. *)
Theorem reconstruction fuel rand calls s n t shares0 :
  0 <= s < L -> 2 <= t <= n -> n <= 254 ->
  length shares0 = Z.to_nat n -> (Z.to_nat n < fuel)%nat ->
  exists shares calls',
    toprf_create_shares fuel rand calls s n t shares0 = Returned (shares, calls') /\
    forall P, NoDup P -> Forall (fun i => 1 <= i <= n) P ->
      Z.of_nat (length P) = t -> reconstruct P shares = s.
Proof.
  intros Hs Ht Hn Hlen Hfuel.
  destruct (toprf_create_shares_spec fuel rand calls s n t shares0 Ht Hn Hlen Hfuel)
    as (shares & Hret & _).
  exists shares, (calls + Z.to_nat (t - 1))%nat. split; [exact Hret|].
  intros P Hnd HP HlenP.
  eapply shares_reconstruct; eauto. lia.
Qed.

Lemma reconstruction_witness :
  exists shares calls',
    toprf_create_shares 4 example_rand 0 42 3 2 (example_buffer 3)
    = Returned (shares, calls') /\
    forall P, NoDup P -> Forall (fun i => 1 <= i <= 3) P ->
      Z.of_nat (length P) = 2 -> reconstruct P shares = 42.
Proof.
  apply (reconstruction 4 example_rand 0 42 3 2 (example_buffer 3)).
  - split; [lia|reflexivity].
  - lia.
  - lia.
  - reflexivity.
  - cbn. lia.
Defined.

(** C1, at the failing input [n = 255]: the call on an array of 255
    shares ends in a write to [shares[-1]]; there are no shares to
    reconstruct from. *)
Theorem reconstruction_n255_no_shares :
  toprf_create_shares 1000 example_rand 0 42 255 2 (example_buffer 255)
  = OutOfBounds.
Proof. vm_compute. reflexivity. Qed.

(** X2 (C6 for [n] up to 254): the call returns after drawing
    exactly [t - 1] random scalars [a], and the share of index [i] holds
    the index byte [i] and the value [f(i) = s + a_1 i + ... +
    a_(t-1) i^(t-1)].  The secret is a canonical scalar, as the data model
    of the specification has it. *)
Theorem create_shares_polynomial fuel rand calls s n t shares0 :
  0 <= s < L -> 2 <= t <= n -> n <= 254 ->
  length shares0 = Z.to_nat n -> (Z.to_nat n < fuel)%nat ->
  exists shares a,
    toprf_create_shares fuel rand calls s n t shares0
    = Returned (shares, (calls + Z.to_nat (t - 1))%nat) /\
    a = map rand (seq calls (Z.to_nat (t - 1))) /\
    Z.of_nat (length a) = t - 1 /\
    length shares = Z.to_nat n /\
    forall i, 1 <= i <= n ->
      share_index (share_at shares i) = i /\
      share_value (share_at shares i) = share_polynomial s a i.
Proof.
  intros _ Ht Hn Hlen Hfuel.
  destruct (toprf_create_shares_spec fuel rand calls s n t shares0 Ht Hn Hlen Hfuel)
    as (shares & Hret & Hlen' & Hla & Hval).
  exists shares, (map rand (seq calls (Z.to_nat (t - 1)))).
  split; [exact Hret|]. split; [reflexivity|]. split; [lia|].
  split; [exact Hlen'|].
  intros i Hi. now rewrite (Hval i Hi).
Qed.

Lemma create_shares_polynomial_witness :
  exists shares a,
    toprf_create_shares 4 example_rand 0 42 3 2 (example_buffer 3)
    = Returned (shares, (0 + Z.to_nat (2 - 1))%nat) /\
    a = map example_rand (seq 0 (Z.to_nat (2 - 1))) /\
    Z.of_nat (length a) = 2 - 1 /\
    length shares = Z.to_nat 3 /\
    forall i, 1 <= i <= 3 ->
      share_index (share_at shares i) = i /\
      share_value (share_at shares i) = share_polynomial 42 a i.
Proof.
  apply (create_shares_polynomial 4 example_rand 0 42 3 2 (example_buffer 3)).
  - split; [lia|reflexivity].
  - lia.
  - lia.
  - reflexivity.
  - cbn. lia.
Defined.

(** C6, at [n = 255]: the counter [i] is a [uint8_t], [i <= n] holds for
    every value of it, and after [i = 255] the loop writes [shares[-1]]:
    whatever the fuel, the secret, the threshold and the array, the call
    does not return. *)
Theorem toprf_create_shares_n255 fuel rand calls s t shares0 :
  toprf_create_shares fuel rand calls s 255 t shares0 = OutOfBounds \/
  toprf_create_shares fuel rand calls s 255 t shares0 = OutOfFuel.
Proof.
  unfold toprf_create_shares.
  destruct (sample_coefficients rand calls (Z.to_nat (t - 1))) as [a calls'].
  destruct (shares_loop_255 s a fuel 1 shares0 ltac:(lia)) as [E|E];
    rewrite E; auto.
Qed.

(** ** C5, C10: [coeff] *)

(** C5: for a duplicate-free set [P] of index bytes that contains [i],
    [coeff(i, P)] is the product over [j] in [P], [j <> i], of
    [j * (j - i)^-1] in the scalar field; it is the same for every
    permutation of the array [peers], and for every duplicate-free array
    with the same elements. *)
Theorem coeff_is_lagrange_coefficient i P :
  is_byte i -> Forall is_byte P -> NoDup P -> In i P ->
  coeff i P = lagrange_coefficient i P /\
  (forall P', Permutation P P' -> coeff i P' = coeff i P) /\
  (forall P', NoDup P' -> (forall j, In j P <-> In j P') ->
     coeff i P' = coeff i P).
Proof.
  intros Hi HP Hnd _.
  assert (Hperm : forall P', Permutation P P' -> coeff i P' = coeff i P).
  { intros P' Hperm.
    apply fe_inj_small; try apply coeff_range.
    rewrite !fe_coeff; try assumption.
    - symmetry. now apply lam_permutation.
    - eapply Permutation_Forall; eassumption. }
  split; [|split].
  - apply fe_inj_small; [apply coeff_range|apply scalar_prod_range|].
    now rewrite fe_coeff, fe_lagrange_coefficient.
  - exact Hperm.
  - intros P' Hnd' Hsame. apply Hperm. now apply NoDup_Permutation.
Qed.

Lemma coeff_is_lagrange_coefficient_witness :
  coeff 2 [1; 2; 3] = lagrange_coefficient 2 [1; 2; 3] /\
  (forall P', Permutation [1; 2; 3] P' -> coeff 2 P' = coeff 2 [1; 2; 3]) /\
  (forall P', NoDup P' -> (forall j, In j [1; 2; 3] <-> In j P') ->
     coeff 2 P' = coeff 2 [1; 2; 3]).
Proof.
  apply (coeff_is_lagrange_coefficient 2 [1; 2; 3]).
  - unfold is_byte. lia.
  - repeat constructor; unfold is_byte; lia.
  - repeat constructor; cbn; lia.
  - cbn. lia.
Defined.

(** C10: [coeff] returns a scalar on every input; entries equal to
    [index] are skipped, so that repeating [index] in [peers] changes
    nothing; and when [index] is not in [peers] the result is the product
    over all of [peers] of [j * (j - index)^-1]. *)
Theorem coeff_total index peers :
  is_byte index -> Forall is_byte peers ->
  0 <= coeff index peers < L /\
  coeff index (filter (fun j => negb (j =? index)) peers) = coeff index peers /\
  (forall p1 p2, coeff index (p1 ++ index :: p2) = coeff index (p1 ++ p2)) /\
  (~ In index peers ->
   coeff index peers = scalar_prod (map (lagrange_factor index) peers)).
Proof.
  intros Hi HP. split; [apply coeff_range|]. split; [|split].
  - unfold coeff. now rewrite coeff_loop_filter.
  - intros p1 p2. unfold coeff. rewrite !coeff_loop_app.
    cbn [coeff_loop]. now rewrite Z.eqb_refl.
  - intros Hnin.
    apply fe_inj_small; [apply coeff_range|apply scalar_prod_range|].
    rewrite fe_coeff, <- fe_lagrange_coefficient by assumption.
    unfold lagrange_coefficient. do 3 f_equal.
    clear HP. induction peers as [|j rest IH]; [reflexivity|].
    cbn [filter]. destruct (Z.eqb_spec j index) as [->|_].
    + elim Hnin. now left.
    + cbn [negb]. f_equal. apply IH. intros H. apply Hnin. now right.
Qed.

Lemma coeff_total_witness :
  0 <= coeff 7 [1; 1; 3] < L /\
  coeff 7 (filter (fun j => negb (j =? 7)) [1; 1; 3]) = coeff 7 [1; 1; 3] /\
  (forall p1 p2, coeff 7 (p1 ++ 7 :: p2) = coeff 7 (p1 ++ p2)) /\
  (~ In 7 [1; 1; 3] ->
   coeff 7 [1; 1; 3] = scalar_prod (map (lagrange_factor 7) [1; 1; 3])).
Proof.
  apply (coeff_total 7 [1; 1; 3]).
  - unfold is_byte. lia.
  - repeat constructor; unfold is_byte; lia.
Defined.

Section GroupClaims.
Context {R : Ristretto255}.

(** ** C2: [toprf_Evaluate] *)

(** C2, the index byte: [toprf_Evaluate] stores nothing in [Z->index];
    the byte of the output buffer is what it was before the call,
    whatever [self] is. *)
Theorem toprf_Evaluate_index_untouched k blinded self indexes Z_ :
  part_index (snd (toprf_Evaluate k blinded self indexes Z_)) = part_index Z_.
Proof.
  unfold toprf_Evaluate.
  destruct (oprf_Evaluate _ blinded (part_value Z_)) as [rc value].
  now destruct (rc =? 0).
Qed.


(** ** C3: threshold evaluation and single-server evaluation *)

(** C3: for shares of a scalar [s] created with threshold [t], [t]
    distinct share indexes [P] and a valid point [alpha], every
    [toprf_Evaluate] returns
    0 and [toprf_thresholdcombine] of the partial evaluations is the
    output [alpha^s] of [oprf_Evaluate] under the key [s]. *)
Theorem toprf_threshold_equals_oprf
    fuel rand calls s n t shares0 shares calls' P alpha Zbuf out :
  0 <= s < L -> 2 <= t <= n -> n <= 255 ->
  toprf_create_shares fuel rand calls s n t shares0 = Returned (shares, calls') ->
  NoDup P -> Forall (fun i => 1 <= i <= n) P -> Z.of_nat (length P) = t ->
  crypto_core_ristretto255_is_valid_point alpha = true ->
  Forall (fun rz => fst rz = 0) (partial_evaluations shares alpha P Zbuf) /\
  oprf_Evaluate s alpha out
  = (0, toprf_thresholdcombine
          (map snd (partial_evaluations shares alpha P Zbuf))).
Proof.
  intros Hs Ht Hn Hret Hnd HP Hlen Hv.
  destruct (is_valid_point_decodes _ Hv) as [A HA].
  pose proof (shares_reconstruct _ _ _ _ _ _ _ _ _ P Hs Ht Hn Hret Hnd HP Hlen)
    as Hrec.
  unfold partial_evaluations. split.
  - rewrite Forall_map, Forall_forall. intros i _.
    now rewrite (toprf_Evaluate_valid _ _ _ _ _ A HA).
  - rewrite toprf_thresholdcombine_spec, !map_map.
    unfold oprf_Evaluate. rewrite HA. f_equal. f_equal.
    rewrite (map_ext _ (fun i => ristretto255_p3_tobytes
               (ge25519_scalarmult
                  (crypto_core_ristretto255_scalar_mul
                     (share_value (share_at shares i)) (coeff i P)) A)))
      by (intros i; now rewrite (toprf_Evaluate_valid _ _ _ _ _ A HA)).
    rewrite <- (map_map _ ristretto255_p3_tobytes), decode_valid_tobytes.
    symmetry. apply (exponent_sum A
      (fun i => crypto_core_ristretto255_scalar_mul
                  (share_value (share_at shares i)) (coeff i P))).
    + rewrite Forall_forall. intros i _. apply scalar_mul_range.
    + rewrite <- Hrec. unfold reconstruct. f_equal. apply map_ext.
      intros i. unfold crypto_core_ristretto255_scalar_mul.
      now rewrite Z.mul_comm.
    + exact Hs.
Qed.

(** ** C4: [toprf_thresholdmult] on raw parts *)

Lemma raw_parts_index shares alpha P :
  map part_index (raw_parts shares alpha P) = P.
Proof.
  unfold raw_parts. rewrite map_map. cbn [part_index]. apply map_id.
Qed.

(** C4 (amended): for shares of [s] created with threshold [t], [t]
    distinct share indexes [P] and a group element [alpha] such that no
    raw part [alpha^(f(i))], [i] in [P], is the identity element,
    [toprf_thresholdmult] on the raw parts returns 0 and writes
    [alpha^s]; the coefficients are computed from the index bytes of the
    parts. *)
Theorem toprf_thresholdmult_raw
    fuel rand calls s n t shares0 shares calls' P (alpha : ge25519_p3) :
  0 <= s < L -> 2 <= t <= n -> n <= 255 ->
  toprf_create_shares fuel rand calls s n t shares0 = Returned (shares, calls') ->
  NoDup P -> Forall (fun i => 1 <= i <= n) P -> Z.of_nat (length P) = t ->
  Forall (fun r => part_value r <> 0) (raw_parts shares alpha P) ->
  map part_index (raw_parts shares alpha P) = P /\
  toprf_thresholdmult (raw_parts shares alpha P)
  = (0, ristretto255_p3_tobytes (ge25519_scalarmult s alpha)).
Proof.
  intros Hs Ht Hn Hret Hnd HP Hlen Hnz.
  split; [apply raw_parts_index|].
  pose proof (shares_reconstruct _ _ _ _ _ _ _ _ _ P Hs Ht Hn Hret Hnd HP Hlen)
    as Hrec.
  destruct (toprf_create_shares_returned _ _ _ _ _ _ _ _ _
              (proj1 Ht) Hn Hret) as (_ & Hla & Hval).
  unfold toprf_thresholdmult. rewrite raw_parts_index.
  unfold raw_parts in *.
  rewrite (thresholdmult_loop_raw P alpha
             (fun i => share_value (share_at shares i)) P 0 ge25519_p3_0
             ristretto255_frombytes_0).
  - f_equal. rewrite ge25519_add_0_l. f_equal.
    apply (exponent_sum alpha
      (fun i => crypto_core_ristretto255_scalar_mul (coeff i P)
                  (share_value (share_at shares i)))).
    + rewrite Forall_forall. intros i _. apply scalar_mul_range.
    + exact Hrec.
    + exact Hs.
  - rewrite Forall_map in Hnz. rewrite Forall_forall in Hnz, HP |- *.
    intros i Hi. pose proof (Hnz i Hi) as Hnzi. pose proof (HP i Hi) as HPi.
    cbn [part_value] in Hnzi.
    split; [|split].
    + rewrite (Hval i HPi). cbn [share_value].
      apply Z.mod_pos_bound, L_pos.
    + apply coeff_nz; [unfold is_byte; lia|].
      rewrite Forall_forall. intros j Hj. specialize (HP j Hj). lia.
    + intros E. apply Hnzi. rewrite E. apply ristretto255_tobytes_0.
Qed.

(** The all-zero string is a valid encoding, of the identity; every
    multiple of it is rejected. *)
Lemma thresholdmult_identity_rejected index :
  crypto_core_ristretto255_is_valid_point 0 = true /\
  toprf_thresholdmult [mkPart index 0] = (1, 0).
Proof.
  unfold crypto_core_ristretto255_is_valid_point, toprf_thresholdmult.
  cbn [map thresholdmult_loop part_index part_value].
  unfold crypto_scalarmult_ristretto255.
  rewrite ristretto255_frombytes_0. split; [reflexivity|].
  pose proof (coeff_range index [index]) as Hc.
  assert (0 <= coeff index [index] mod 2 ^ 255)
    by (apply Z.mod_pos_bound; reflexivity).
  rewrite ge25519_scalarmult_0_r, ristretto255_tobytes_0 by assumption.
  reflexivity.
Qed.

(** ** C7: when [toprf_thresholdmult] fails *)

(** C7 (amended): [toprf_thresholdmult] returns non-zero (the value 1) if
    and only if the scalar multiplication rejects some response: its
    value field is not a valid encoding, or is the identity, or its
    coefficient is zero, which on index bytes means that a byte 0 stands
    in the list next to a non-zero index.  On value fields that are valid
    and not the identity, with index bytes that are not zero, it
    returns 0. *)
Theorem toprf_thresholdmult_failure responses :
  (fst (toprf_thresholdmult responses) <> 0 <->
   Exists (rejected (map part_index responses)) responses) /\
  (fst (toprf_thresholdmult responses) = 0 \/
   fst (toprf_thresholdmult responses) = 1) /\
  (Forall is_byte (map part_index responses) ->
   forall r, In r responses ->
     (coeff (part_index r) (map part_index responses) = 0 <->
      In 0 (map part_index responses) /\ part_index r <> 0)) /\
  (Forall (fun r => crypto_core_ristretto255_is_valid_point (part_value r) = true /\
                    part_value r <> 0 /\ 0 < part_index r < 256) responses ->
   fst (toprf_thresholdmult responses) = 0).
Proof.
  split; [apply thresholdmult_loop_fails|]. split; [|split].
  - apply thresholdmult_loop_rc.
  - intros Hall r Hin. apply coeff_eq_0_iff; [|exact Hall].
    rewrite Forall_map, Forall_forall in Hall. now apply Hall.
  - intros Hall.
    destruct (Z.eq_dec (fst (toprf_thresholdmult responses)) 0) as [|Hne];
      [assumption|exfalso].
    apply thresholdmult_loop_fails in Hne.
    rewrite Exists_exists in Hne. destruct Hne as (r & Hin & Hrej).
    assert (Hidx : Forall (fun j => 0 < j < 256) (map part_index responses)).
    { rewrite Forall_map. eapply Forall_impl; [|exact Hall].
      intros ? (_ & _ & ?). assumption. }
    rewrite Forall_forall in Hall.
    destruct (Hall r Hin) as (Hv & Hnz & Hi).
    destruct Hrej as [E|[E|E]]; [congruence|contradiction|].
    apply (coeff_nz (part_index r) (map part_index responses));
      [unfold is_byte; lia|exact Hidx|].
    rewrite E. reflexivity.
Qed.

(** ** C9: [toprf_thresholdcombine] *)

(** An odd string is not a valid encoding, and is skipped. *)
Lemma thresholdcombine_skips_invalid index :
  ristretto255_frombytes 1 = None /\
  toprf_thresholdcombine [mkPart index 1] = 0.
Proof.
  assert (H : ristretto255_frombytes 1 = None).
  { destruct (ristretto255_frombytes 1) as [p|] eqn:E; [|reflexivity].
    apply ristretto255_frombytes_canonical in E. destruct E as [_ E].
    discriminate. }
  split; [exact H|].
  rewrite toprf_thresholdcombine_spec. cbn [map decode_valid part_value].
  rewrite H. apply ristretto255_tobytes_0.
Qed.

(** C9 (amended): [toprf_thresholdcombine] returns no error code and
    yields a result on every list: the encoded sum of the group elements
    that the value fields hold, a field that is not a valid encoding
    being skipped; all-zero on the empty list; the sum of all the fields
    when all are valid; nothing of it depends on the index bytes. *)
Theorem toprf_thresholdcombine_total responses :
  toprf_thresholdcombine responses
  = ristretto255_p3_tobytes
      (ge25519_sum (decode_valid (map part_value responses))) /\
  toprf_thresholdcombine [] = 0 /\
  (forall ps : list (Z * ge25519_p3),
     toprf_thresholdcombine
       (map (fun ip => mkPart (fst ip) (ristretto255_p3_tobytes (snd ip))) ps)
     = ristretto255_p3_tobytes (ge25519_sum (map snd ps))) /\
  (forall f : TOPRF_Part -> Z,
     toprf_thresholdcombine
       (map (fun r => mkPart (f r) (part_value r)) responses)
     = toprf_thresholdcombine responses).
Proof.
  split; [apply toprf_thresholdcombine_spec|]. split; [reflexivity|]. split.
  - intros ps. rewrite toprf_thresholdcombine_spec, map_map. cbn [part_value].
    now rewrite <- (map_map snd ristretto255_p3_tobytes), decode_valid_tobytes.
  - intros f. rewrite !toprf_thresholdcombine_spec, map_map. reflexivity.
Qed.
End GroupClaims.

(** ** C8: the header of the TP-DKG messages *)

Lemma length_le_bytes n : forall v, length (le_bytes n v) = n.
Proof. induction n as [|n IH]; intros v; cbn [le_bytes length]; auto. Qed.

(** C8: the packed header is [sig](64) [msgno](1) [len](4, little-endian)
    [from](1) [to](1) [ts](8, little-endian) [sessionid](32), 111 bytes in
    all; hence [tpdkg_msg0_SIZE] is 111 + 32 + 2 + 32 = 177 and
    [tpdkg_msg8_SIZE] is 111 + 64 + 33 + 16 + 32 = 256. *)
Theorem TP_DKG_Message_layout :
  (forall m,
     TP_DKG_Message_bytes m
     = le_bytes 64 (sig m) ++ le_bytes 1 (msgno m) ++ le_bytes 4 (len m)
       ++ le_bytes 1 (from m) ++ le_bytes 1 (to m) ++ le_bytes 8 (ts m)
       ++ le_bytes 32 (sessionid m)) /\
  (forall m, Z.of_nat (length (TP_DKG_Message_bytes m)) = 111) /\
  map (offsetof_packed TP_DKG_Message_members) (seq 0 8)
  = [0; 64; 65; 69; 70; 71; 79; 111] /\
  sizeof_TP_DKG_Message = 111 /\
  sizeof_TOPRF_Share = 33 /\
  tpdkg_msg0_SIZE = 111 + 32 + 2 + 32 /\ tpdkg_msg0_SIZE = 177 /\
  tpdkg_msg8_SIZE = 111 + 64 + 33 + 16 + 32 /\ tpdkg_msg8_SIZE = 256.
Proof.
  assert (Hb : forall m,
     TP_DKG_Message_bytes m
     = le_bytes 64 (sig m) ++ le_bytes 1 (msgno m) ++ le_bytes 4 (len m)
       ++ le_bytes 1 (from m) ++ le_bytes 1 (to m) ++ le_bytes 8 (ts m)
       ++ le_bytes 32 (sessionid m)).
  { intros m. unfold TP_DKG_Message_bytes, packed_bytes, member_values,
      TP_DKG_Message_members.
    cbn [combine map concat fst snd].
    change (Z.to_nat (sizeof_member (mkMember "data" uint8_t 0))) with 0%nat.
    cbn [le_bytes]. rewrite app_nil_r. reflexivity. }
  split; [exact Hb|]. split.
  - intros m. rewrite Hb, !length_app, !length_le_bytes. reflexivity.
  - repeat split; reflexivity.
Qed.

(** ** The claims on the reference group *)


Lemma toprf_threshold_equals_oprf_witness :
  Forall (fun rz => fst rz = 0)
    (@partial_evaluations ZL_group example_shares 14 [1; 3] (fun _ => mkPart 0 0)) /\
  @oprf_Evaluate ZL_group 42 14 0
  = (0, @toprf_thresholdcombine ZL_group
          (map snd (@partial_evaluations ZL_group example_shares 14 [1; 3]
                      (fun _ => mkPart 0 0)))).
Proof.
  apply (@toprf_threshold_equals_oprf ZL_group 4 example_rand 0 42 3 2
           (example_buffer 3) example_shares 1%nat [1; 3] 14
           (fun _ => mkPart 0 0) 0).
  - split; [lia|reflexivity].
  - lia.
  - lia.
  - vm_compute. reflexivity.
  - repeat constructor; cbn; lia.
  - repeat constructor; lia.
  - reflexivity.
  - reflexivity.
Defined.

Lemma toprf_thresholdmult_raw_witness :
  map part_index (@raw_parts ZL_group example_shares (Zmod.of_Z L 7) [1; 3])
  = [1; 3] /\
  @toprf_thresholdmult ZL_group
    (@raw_parts ZL_group example_shares (Zmod.of_Z L 7) [1; 3])
  = (0, @ristretto255_p3_tobytes ZL_group
          (@ge25519_scalarmult ZL_group 42 (Zmod.of_Z L 7))).
Proof.
  apply (@toprf_thresholdmult_raw ZL_group 4 example_rand 0 42 3 2
           (example_buffer 3) example_shares 1%nat [1; 3] (Zmod.of_Z L 7)).
  - split; [lia|reflexivity].
  - lia.
  - lia.
  - vm_compute. reflexivity.
  - repeat constructor; cbn; lia.
  - repeat constructor; lia.
  - reflexivity.
  - repeat constructor; vm_compute; discriminate.
Defined.

(** C4, as stated, fails on the identity: every raw part of it is the
    identity, the all-zero string, and the scalar multiplication rejects
    the first of them: the call returns 1.  It fails as well on an element
    other than the identity when some [f(i)] is zero: here [f(1) = 0]. *)
Lemma thresholdmult_raw_counterexample :
  (toprf_create_shares 4 example_rand 0 42 3 2 (example_buffer 3)
   = Returned (example_shares, 1%nat) /\
   exists alpha,
     ~ @thresholdmult_raw_as_stated ZL_group 42 example_shares [1; 3] alpha) /\
  (exists shares alpha,
     toprf_create_shares 4 example_rand 0 (L - 99) 3 2 (example_buffer 3)
     = Returned (shares, 1%nat) /\
     @ristretto255_p3_tobytes ZL_group alpha <> 0 /\
     ~ @thresholdmult_raw_as_stated ZL_group (L - 99) shares [1; 3] alpha).
Proof.
  split.
  - split; [vm_compute; reflexivity|].
    exists (@ge25519_p3_0 ZL_group). intros H.
    vm_compute in H. discriminate H.
  - exists [mkShare 1 0; mkShare 2 99; mkShare 3 198], (Zmod.of_Z L 7).
    split; [vm_compute; reflexivity|]. split; [vm_compute; discriminate|].
    intros H. vm_compute in H. discriminate H.
Qed.

Lemma toprf_thresholdmult_failure_witness :
  fst (@toprf_thresholdmult ZL_group [mkPart 1 14; mkPart 2 6]) = 0.
Proof.
  apply (proj2 (proj2 (proj2 (@toprf_thresholdmult_failure ZL_group
                                [mkPart 1 14; mkPart 2 6])))).
  repeat constructor; try reflexivity; try lia; vm_compute; discriminate.
Defined.

(** C7, as stated, fails on the identity: the only value field is a valid
    point, and the call returns 1.  And valid fields other than the
    identity are rejected next to an index byte 0. *)
Lemma thresholdmult_fails_counterexample :
  (exists responses, ~ @thresholdmult_fails_as_stated ZL_group responses) /\
  (Forall (fun r => @crypto_core_ristretto255_is_valid_point ZL_group (part_value r) = true
                    /\ part_value r <> 0) [mkPart 0 2; mkPart 1 2] /\
   fst (@toprf_thresholdmult ZL_group [mkPart 0 2; mkPart 1 2]) = 1).
Proof.
  split.
  - exists [mkPart 1 0]. intros [H _].
    assert (Hne : fst (@toprf_thresholdmult ZL_group [mkPart 1 0]) <> 0)
      by (vm_compute; discriminate).
    apply H in Hne. inversion Hne as [? ? E|? ? E]; subst.
    + vm_compute in E. discriminate E.
    + inversion E.
  - split; [|vm_compute; reflexivity].
    repeat constructor; cbn [part_value]; try reflexivity; lia.
Qed.

(** C9, as stated, fails on a value field that is no group element: there
    is no sum of the fields, and the result is all-zero. *)
Lemma thresholdcombine_counterexample :
  exists responses,
    @toprf_thresholdcombine ZL_group responses = 0 /\
    ~ @thresholdcombine_as_stated ZL_group responses.
Proof.
  exists [mkPart 1 1]. split; [reflexivity|].
  intros (ps & H & _). destruct ps as [|p ps]; cbn in H; discriminate H.
Qed.

(* ===================================================================== *)
(** * Part VI: further properties of the code *)
(* ===================================================================== *)

(** ** [coeff] *)

Lemma fe_sum_coeff P : forall Q,
  Forall is_byte P -> Forall is_byte Q ->
  fe (scalar_sum (map (fun i => coeff i P) Q)) = interp (fun _ => Zmod.one) Q P.
Proof.
  intros Q HP HQ. rewrite fe_scalar_sum.
  induction Q as [|i rest IH]; cbn [map fold_right interp]; [reflexivity|].
  inversion HQ as [|? ? Hi Hrest]; subst.
  rewrite IH, fe_coeff by assumption. ring.
Qed.

(** X4: the coefficients of a non-empty duplicate-free set of index bytes
    sum to 1 in the scalar field: shares that all hold the same value
    recombine to that value. *)
Theorem coeff_sum_one P :
  Forall is_byte P -> NoDup P -> P <> [] ->
  scalar_sum (map (fun i => coeff i P) P) = 1.
Proof.
  intros HP Hnd Hne.
  apply fe_inj_small; [apply scalar_sum_range|split; [lia|reflexivity]|].
  rewrite fe_sum_coeff, fe_1 by assumption.
  destruct P as [|a rest]; [contradiction|].
  now apply (interp_one (length rest)).
Qed.

Lemma coeff_sum_one_witness :
  scalar_sum (map (fun i => coeff i [2; 5; 9]) [2; 5; 9]) = 1.
Proof.
  apply (coeff_sum_one [2; 5; 9]).
  - repeat constructor; unfold is_byte; lia.
  - repeat constructor; cbn; lia.
  - discriminate.
Defined.

Lemma lam_0 : forall P, Forall is_byte P -> lam 0 P = Zmod.one.
Proof.
  induction P as [|j rest IH]; intros HP; cbn [lam]; [reflexivity|].
  inversion HP as [|? ? Hj Hrest]; subst.
  destruct (Z.eqb_spec j 0) as [|Hne]; [now apply IH|].
  rewrite IH by assumption.
  assert (Hnz : fe j <> Zmod.zero) by (apply fe_byte_nz; unfold is_byte in Hj; lia).
  rewrite fe_0. field. exact Hnz.
Qed.

(** X5: the degenerate calls of [coeff].  For the index 0 the coefficient
    is 1 whatever the peers; and when no entry of [peers] differs from
    [index] (an empty array, or [index] repeated) the result is 1. *)
Theorem coeff_degenerate peers :
  Forall is_byte peers ->
  coeff 0 peers = 1 /\
  forall index k, coeff index (repeat index k) = 1.
Proof.
  intros HP. split.
  - apply fe_inj_small; [apply coeff_range|split; [lia|reflexivity]|].
    rewrite fe_coeff, fe_1; [now apply lam_0|unfold is_byte; lia|exact HP].
  - intros index k. unfold coeff.
    replace (coeff_loop index (repeat index k) 1 1) with (1, 1); [reflexivity|].
    induction k as [|k IH]; cbn [repeat coeff_loop]; [reflexivity|].
    now rewrite Z.eqb_refl.
Qed.

Lemma coeff_degenerate_witness :
  coeff 0 [3; 0; 7; 7] = 1 /\
  forall index k, coeff index (repeat index k) = 1.
Proof.
  apply (coeff_degenerate [3; 0; 7; 7]).
  repeat constructor; unfold is_byte; lia.
Defined.

(** ** Polynomials and quorums *)










Lemma index_bytes n P :
  n <= 255 -> Forall (fun i => 1 <= i <= n) P -> Forall (fun i => 0 < i < 256) P.
Proof.
  intros Hn HP. eapply Forall_impl; [|exact HP]. cbn. intros; lia.
Qed.

Lemma nonzero_bytes P : Forall (fun i => 0 < i < 256) P -> Forall is_byte P.
Proof.
  intros HP. eapply Forall_impl; [|exact HP]. unfold is_byte. intros; lia.
Qed.



(** ** The array that [toprf_create_shares] writes *)

(** The loop writes [shares[0..n-1]] only, whatever the length of the
    array beyond [n]. *)
Lemma shares_loop_frame secret n a : forall k i shares fuel,
  n <= 254 -> 1 <= i -> i + Z.of_nat k = n + 1 ->
  (Z.to_nat n <= length shares)%nat -> (k < fuel)%nat ->
  exists shares',
    shares_loop fuel secret n a i shares = Returned shares' /\
    length shares' = length shares /\
    (forall m, i <= m <= n ->
       share_at shares' m = mkShare m (share_value_loop m a 0 secret)) /\
    (forall j d, (j < Z.to_nat (i - 1) \/ Z.to_nat n <= j)%nat ->
       nth j shares' d = nth j shares d).
Proof.
  induction k as [|k IH]; intros i shares fuel Hn Hi Hk Hlen Hfuel.
  - destruct fuel as [|fuel]; [lia|]. cbn [shares_loop].
    destruct (Z.leb_spec i n) as [|_]; [lia|].
    exists shares. repeat split; try reflexivity. intros; lia.
  - destruct fuel as [|fuel]; [lia|]. cbn [shares_loop].
    destruct (Z.leb_spec i n) as [_|]; [|lia].
    unfold store.
    replace ((0 <=? i - 1) && (i - 1 <? Z.of_nat (length shares))) with true
      by (symmetry; apply andb_true_intro; split;
          [apply Z.leb_le|apply Z.ltb_lt]; lia).
    rewrite Z.mod_small by lia.
    set (v := mkShare i (share_value_loop i a 0 secret)).
    destruct (IH (i + 1) (list_set shares (Z.to_nat (i - 1)) v) fuel)
      as (shares' & Hret & Hlen' & Hnew & Hold); try lia.
    { rewrite length_list_set. lia. }
    rewrite length_list_set in Hlen'.
    exists shares'. split; [exact Hret|]. split; [exact Hlen'|]. split.
    + intros m Hm. destruct (Z.eq_dec m i) as [->|Hne].
      * unfold share_at. rewrite Hold by lia.
        apply nth_list_set_eq. lia.
      * apply Hnew. lia.
    + intros j d Hj. rewrite Hold by lia.
      apply nth_list_set_neq. lia.
Qed.

(** With fewer than [n] entries the loop writes past the end. *)
Lemma shares_loop_short secret n a : forall k i shares fuel,
  n <= 255 -> 1 <= i -> i - 1 + Z.of_nat k = Z.of_nat (length shares) ->
  Z.of_nat (length shares) < n -> (k < fuel)%nat ->
  shares_loop fuel secret n a i shares = OutOfBounds.
Proof.
  induction k as [|k IH]; intros i shares fuel Hn Hi Hk Hlen Hfuel;
    (destruct fuel as [|fuel]; [lia|]); cbn [shares_loop];
    (destruct (Z.leb_spec i n) as [_|]; [|lia]); unfold store.
  - replace (i - 1 <? Z.of_nat (length shares)) with false
      by (symmetry; apply Z.ltb_ge; lia).
    now rewrite andb_false_r.
  - replace ((0 <=? i - 1) && (i - 1 <? Z.of_nat (length shares))) with true
      by (symmetry; apply andb_true_intro; split;
          [apply Z.leb_le|apply Z.ltb_lt]; lia).
    rewrite Z.mod_small by lia.
    apply IH; rewrite ?length_list_set; lia.
Qed.

(** X7: [toprf_create_shares] writes the first [n] entries of the array
    and nothing else.  For [n] up to 254 and an array of at least [n]
    entries the call returns, the array keeps its length, entry [i-1]
    carries the index [i], every entry from [n] on is unchanged (so for
    [n = 0] the whole array), and [threshold - 1] random scalars have been
    drawn, also when the threshold exceeds [n]. *)
Theorem toprf_create_shares_frame fuel rand calls secret n threshold shares0 :
  0 <= n <= 254 -> 1 <= threshold <= 255 ->
  (Z.to_nat n <= length shares0)%nat -> (Z.to_nat n < fuel)%nat ->
  exists shares,
    toprf_create_shares fuel rand calls secret n threshold shares0
    = Returned (shares, (calls + Z.to_nat (threshold - 1))%nat) /\
    length shares = length shares0 /\
    (forall i, 1 <= i <= n -> share_index (share_at shares i) = i) /\
    (forall j d, (Z.to_nat n <= j)%nat -> nth j shares d = nth j shares0 d).
Proof.
  intros Hn Ht Hlen Hfuel.
  unfold toprf_create_shares. rewrite sample_coefficients_spec.
  destruct (shares_loop_frame secret n
              (map rand (seq calls (Z.to_nat (threshold - 1))))
              (Z.to_nat n) 1 shares0 fuel)
    as (shares & Hret & Hlen' & Hnew & Hold); try lia.
  rewrite Hret. exists shares. split; [reflexivity|]. split; [exact Hlen'|].
  split.
  - intros i Hi. now rewrite (Hnew i Hi).
  - intros j d Hj. apply Hold. now right.
Qed.

Lemma toprf_create_shares_frame_witness :
  exists shares,
    toprf_create_shares 4 example_rand 0 42 3 5 (example_buffer 5)
    = Returned (shares, (0 + Z.to_nat (5 - 1))%nat) /\
    length shares = length (example_buffer 5) /\
    (forall i, 1 <= i <= 3 -> share_index (share_at shares i) = i) /\
    (forall j d, (Z.to_nat 3 <= j)%nat ->
       nth j shares d = nth j (example_buffer 5) d).
Proof.
  apply (toprf_create_shares_frame 4 example_rand 0 42 3 5 (example_buffer 5)).
  - lia.
  - lia.
  - cbn. lia.
  - cbn. lia.
Defined.

(** X8: an array of fewer than [n] entries is overrun.  With [m < n]
    entries the loop fills all [m] of them and then writes [shares[m]],
    outside the array, for every [n] up to 255. *)
Theorem toprf_create_shares_overrun fuel rand calls secret n threshold shares0 :
  n <= 255 -> 1 <= threshold <= 255 ->
  Z.of_nat (length shares0) < n -> (length shares0 < fuel)%nat ->
  toprf_create_shares fuel rand calls secret n threshold shares0 = OutOfBounds.
Proof.
  intros Hn _ Hlen Hfuel. unfold toprf_create_shares.
  rewrite sample_coefficients_spec.
  rewrite (shares_loop_short secret n _ (length shares0) 1 shares0 fuel);
    [reflexivity|lia..].
Qed.

Lemma toprf_create_shares_overrun_witness :
  toprf_create_shares 3 example_rand 0 42 3 2 (example_buffer 2) = OutOfBounds.
Proof.
  apply (toprf_create_shares_overrun 3 example_rand 0 42 3 2 (example_buffer 2)).
  - lia.
  - lia.
  - cbn. lia.
  - cbn. lia.
Defined.

(** X9: a threshold of 1 shares nothing.  The array [a] has no entry, no
    random scalar is drawn, and every share carries the bytes of the secret
    itself, not even reduced modulo [L]. *)
Theorem toprf_create_shares_threshold_1 fuel rand calls secret n shares0 :
  0 <= n <= 254 ->
  (Z.to_nat n <= length shares0)%nat -> (Z.to_nat n < fuel)%nat ->
  exists shares,
    toprf_create_shares fuel rand calls secret n 1 shares0
    = Returned (shares, calls) /\
    forall i, 1 <= i <= n -> share_at shares i = mkShare i secret.
Proof.
  intros Hn Hlen Hfuel.
  unfold toprf_create_shares. rewrite sample_coefficients_spec.
  change (Z.to_nat (1 - 1)) with 0%nat. cbn [seq map].
  destruct (shares_loop_frame secret n [] (Z.to_nat n) 1 shares0 fuel)
    as (shares & Hret & _ & Hnew & _); try lia.
  rewrite Hret, Nat.add_0_r. exists shares. split; [reflexivity|].
  intros i Hi. now rewrite (Hnew i Hi).
Qed.

Lemma toprf_create_shares_threshold_1_witness :
  exists shares,
    toprf_create_shares 4 example_rand 7 (L + 5) 3 1 (example_buffer 3)
    = Returned (shares, 7%nat) /\
    forall i, 1 <= i <= 3 -> share_at shares i = mkShare i (L + 5).
Proof.
  apply (toprf_create_shares_threshold_1 4 example_rand 7 (L + 5) 3 (example_buffer 3)).
  - lia.
  - cbn. lia.
  - cbn. lia.
Defined.

(** ** A share that was altered, and sums of shares *)

Lemma share_at_replace_eq shares i v :
  1 <= i -> (Z.to_nat (i - 1) < length shares)%nat ->
  share_at (replace_share shares i v) i = mkShare i v.
Proof.
  intros Hi Hlen. unfold share_at, replace_share. now apply nth_list_set_eq.
Qed.

Lemma share_at_replace_neq shares i v m :
  1 <= i -> 1 <= m -> m <> i ->
  share_at (replace_share shares i v) m = share_at shares m.
Proof.
  intros Hi Hm Hne. unfold share_at, replace_share.
  apply nth_list_set_neq. lia.
Qed.

Lemma fe_reconstruct_replaced P shares i0 v : forall Q,
  1 <= i0 -> (Z.to_nat (i0 - 1) < length shares)%nat ->
  Forall (fun i => 1 <= i) Q -> NoDup Q ->
  fe (scalar_sum
        (map (fun i => crypto_core_ristretto255_scalar_mul (coeff i P)
                (share_value (share_at (replace_share shares i0 v) i))) Q))
  = Zmod.add
      (fe (scalar_sum
             (map (fun i => crypto_core_ristretto255_scalar_mul (coeff i P)
                     (share_value (share_at shares i))) Q)))
      (if existsb (Z.eqb i0) Q
       then Zmod.mul (fe (coeff i0 P))
              (Zmod.sub (fe v) (fe (share_value (share_at shares i0))))
       else Zmod.zero).
Proof.
  intros Q Hi0 Hlen HQ Hnd.
  induction Q as [|i rest IH]; cbn [map scalar_sum fold_right existsb].
  - rewrite fe_0. ring.
  - fold (scalar_sum (map (fun i => crypto_core_ristretto255_scalar_mul (coeff i P)
                (share_value (share_at (replace_share shares i0 v) i))) rest)).
    fold (scalar_sum (map (fun i => crypto_core_ristretto255_scalar_mul (coeff i P)
                (share_value (share_at shares i))) rest)).
    inversion HQ as [|? ? Hi Hrest]; subst.
    inversion Hnd as [|? ? Hnotin Hnd']; subst.
    specialize (IH Hrest Hnd').
    rewrite !fe_add, !fe_mul, IH.
    destruct (Z.eqb_spec i0 i) as [->|Hne]; cbn [orb].
    + rewrite share_at_replace_eq by assumption. cbn [share_value].
      replace (existsb (Z.eqb i) rest) with false.
      * ring.
      * symmetry. apply not_true_is_false. intros H.
        apply existsb_exists in H. destruct H as (x & Hx & E).
        apply Z.eqb_eq in E. now subst x.
    + rewrite share_at_replace_neq by (try assumption; congruence).
      destruct (existsb (Z.eqb i0) rest); ring.
Qed.

(** X10: one altered share changes the recombined scalar.  For the shares
    that [toprf_create_shares] returns and any quorum containing the index
    [i0], replacing the value of the share [i0] shifts the recombination by
    [coeff(i0, P)] times the difference, and the result differs from the
    secret as soon as the new value is another scalar modulo [L]. *)
Theorem reconstruction_replaced_share fuel rand calls s n t shares0 :
  0 <= s < L -> 2 <= t <= n -> n <= 254 ->
  length shares0 = Z.to_nat n -> (Z.to_nat n < fuel)%nat ->
  exists shares calls',
    toprf_create_shares fuel rand calls s n t shares0 = Returned (shares, calls') /\
    forall P i0 v, NoDup P -> Forall (fun i => 1 <= i <= n) P ->
      t <= Z.of_nat (length P) -> In i0 P ->
      reconstruct P (replace_share shares i0 v)
      = crypto_core_ristretto255_scalar_add s
          (crypto_core_ristretto255_scalar_mul (coeff i0 P)
             (crypto_core_ristretto255_scalar_sub v
                (share_value (share_at shares i0)))) /\
      (v mod L <> share_value (share_at shares i0) ->
       reconstruct P (replace_share shares i0 v) <> s).
Proof.
  intros Hs Ht Hn Hlen Hfuel.
  destruct (toprf_create_shares_spec fuel rand calls s n t shares0 Ht Hn Hlen Hfuel)
    as (shares & Hret & Hlen' & Hla & Hval).
  exists shares, (calls + Z.to_nat (t - 1))%nat. split; [exact Hret|].
  intros P i0 v Hnd HP HlenP Hin.
  assert (HPb : Forall (fun i => 0 < i < 256) P) by (apply (index_bytes n); [lia|exact HP]).
  assert (Hi0 : 1 <= i0 <= n) by (rewrite Forall_forall in HP; now apply HP).
  assert (Hrec : reconstruct P shares = s).
  { apply (reconstruct_polynomial s (map rand (seq calls (Z.to_nat (t - 1)))) P shares Hs).
    - now apply nonzero_bytes.
    - exact Hnd.
    - rewrite Hla. lia.
    - intros i Hi. rewrite Forall_forall in HP. now rewrite (Hval i (HP i Hi)). }
  assert (Hfe : fe (reconstruct P (replace_share shares i0 v))
                = Zmod.add (fe s)
                    (Zmod.mul (fe (coeff i0 P))
                       (Zmod.sub (fe v) (fe (share_value (share_at shares i0)))))).
  { unfold reconstruct at 1.
    rewrite (fe_reconstruct_replaced P shares i0 v P); try lia; try assumption.
    - fold (reconstruct P shares). rewrite Hrec.
      replace (existsb (Z.eqb i0) P) with true; [reflexivity|].
      symmetry. apply existsb_exists. exists i0. split; [exact Hin|apply Z.eqb_refl].
    - eapply Forall_impl; [|exact HP]. cbn. intros; lia. }
  split.
  - apply fe_inj_small; [apply scalar_sum_range|apply scalar_add_range|].
    now rewrite Hfe, fe_add, fe_mul, fe_sub.
  - intros Hv Heq. rewrite Heq in Hfe.
    assert (Hz : Zmod.mul (fe (coeff i0 P))
                   (Zmod.sub (fe v) (fe (share_value (share_at shares i0))))
                 = Zmod.zero).
    { transitivity (Zmod.sub
         (Zmod.add (fe s) (Zmod.mul (fe (coeff i0 P))
            (Zmod.sub (fe v) (fe (share_value (share_at shares i0))))))
         (fe s)); [ring|]. rewrite <- Hfe. ring. }
    apply (Zmod.mul_0_iff_prime L_prime) in Hz. destruct Hz as [Hz|Hz].
    + rewrite fe_coeff in Hz; [|unfold is_byte; lia|now apply nonzero_bytes].
      revert Hz. apply lam_nz; [unfold is_byte; lia|exact HPb].
    + apply Hv.
      assert (E : fe v = fe (share_value (share_at shares i0))).
      { transitivity (Zmod.add (Zmod.sub (fe v) (fe (share_value (share_at shares i0))))
                        (fe (share_value (share_at shares i0)))); [ring|].
        rewrite Hz. ring. }
      apply fe_eq_iff in E. rewrite E, (Hval i0 Hi0). cbn [share_value].
      unfold share_polynomial. apply Z.mod_mod. discriminate.
Qed.

Lemma reconstruction_replaced_share_witness :
  exists shares calls',
    toprf_create_shares 4 example_rand 0 42 3 2 (example_buffer 3)
    = Returned (shares, calls') /\
    forall P i0 v, NoDup P -> Forall (fun i => 1 <= i <= 3) P ->
      2 <= Z.of_nat (length P) -> In i0 P ->
      reconstruct P (replace_share shares i0 v)
      = crypto_core_ristretto255_scalar_add 42
          (crypto_core_ristretto255_scalar_mul (coeff i0 P)
             (crypto_core_ristretto255_scalar_sub v
                (share_value (share_at shares i0)))) /\
      (v mod L <> share_value (share_at shares i0) ->
       reconstruct P (replace_share shares i0 v) <> 42).
Proof.
  apply (reconstruction_replaced_share 4 example_rand 0 42 3 2 (example_buffer 3)).
  - split; [lia|reflexivity].
  - lia.
  - lia.
  - reflexivity.
  - cbn. lia.
Defined.




(** ** Fewer shares than the threshold *)








(** ** The group side: [toprf_thresholdmult] and [toprf_thresholdcombine] *)

Lemma coeff_permutation i P P' :
  is_byte i -> Forall is_byte P -> Permutation P P' -> coeff i P = coeff i P'.
Proof.
  intros Hi HP Hperm.
  assert (HP' : Forall is_byte P').
  { rewrite Forall_forall in *. intros j Hj. apply HP.
    eapply Permutation_in; [symmetry; exact Hperm|exact Hj]. }
  apply fe_inj_small; [apply coeff_range|apply coeff_range|].
  rewrite !fe_coeff by assumption. now apply lam_permutation.
Qed.

Lemma shares_reconstruct_quorum fuel rand calls s n t shares0 shares calls' P :
  0 <= s < L -> 2 <= t <= n -> n <= 255 ->
  toprf_create_shares fuel rand calls s n t shares0 = Returned (shares, calls') ->
  NoDup P -> Forall (fun i => 1 <= i <= n) P -> t <= Z.of_nat (length P) ->
  reconstruct P shares = s /\
  forall i, In i P -> 0 <= share_value (share_at shares i) < L.
Proof.
  intros Hs Ht Hn Hret Hnd HP Hlen.
  destruct (toprf_create_shares_returned _ _ _ _ _ _ _ _ _
              (proj1 Ht) Hn Hret) as (_ & Hla & Hval).
  split.
  - apply (reconstruct_polynomial s (map rand (seq calls (Z.to_nat (t - 1)))) P shares Hs).
    + apply nonzero_bytes, (index_bytes n); [lia|exact HP].
    + exact Hnd.
    + rewrite Hla. lia.
    + intros i Hi. rewrite Forall_forall in HP. now rewrite (Hval i (HP i Hi)).
  - intros i Hi. rewrite Forall_forall in HP. rewrite (Hval i (HP i Hi)).
    cbn [share_value]. apply Z.mod_pos_bound, L_pos.
Qed.

Section GroupExtras.
Context {R : Ristretto255}.

Lemma ge25519_sum_app l1 l2 :
  ge25519_sum (l1 ++ l2) = ge25519_add (ge25519_sum l1) (ge25519_sum l2).
Proof.
  induction l1 as [|p rest IH]; cbn [app ge25519_sum].
  - symmetry. apply ge25519_add_0_l.
  - rewrite IH, <- !ge25519_add_assoc. f_equal. apply ge25519_add_comm.
Qed.

Lemma ge25519_sum_permutation l l' :
  Permutation l l' -> ge25519_sum l = ge25519_sum l'.
Proof.
  induction 1 as [|x l l' _ IH|x y l|l l' l'' _ IH1 _ IH2]; cbn [ge25519_sum].
  - reflexivity.
  - now rewrite IH.
  - rewrite <- !ge25519_add_assoc. f_equal. apply ge25519_add_comm.
  - now rewrite IH1.
Qed.

Lemma decode_valid_app l1 l2 :
  decode_valid (l1 ++ l2) = decode_valid l1 ++ decode_valid l2.
Proof.
  induction l1 as [|v rest IH]; cbn [app decode_valid]; [reflexivity|].
  destruct (ristretto255_frombytes v); now rewrite IH.
Qed.

Lemma decode_valid_permutation l l' :
  Permutation l l' -> Permutation (decode_valid l) (decode_valid l').
Proof.
  induction 1 as [|x l l' _ IH|x y l|l l' l'' _ IH1 _ IH2]; cbn [decode_valid].
  - constructor.
  - destruct (ristretto255_frombytes x); [now constructor|exact IH].
  - destruct (ristretto255_frombytes x), (ristretto255_frombytes y);
      try reflexivity. apply perm_swap.
  - now transitivity (decode_valid l').
Qed.

(** X13: [toprf_thresholdcombine] always leaves a valid encoding, and
    combining in two batches is combining at once: the
    [crypto_core_ristretto255_add] of the results of two lists returns 0
    and gives the result of their concatenation. *)
Theorem toprf_thresholdcombine_app rs1 rs2 :
  crypto_core_ristretto255_is_valid_point (toprf_thresholdcombine rs1) = true /\
  crypto_core_ristretto255_add 0 (toprf_thresholdcombine rs1)
    (toprf_thresholdcombine rs2)
  = (0, toprf_thresholdcombine (rs1 ++ rs2)).
Proof.
  rewrite !toprf_thresholdcombine_spec.
  unfold crypto_core_ristretto255_is_valid_point, crypto_core_ristretto255_add.
  rewrite !ristretto255_frombytes_tobytes. split; [reflexivity|].
  now rewrite map_app, decode_valid_app, ge25519_sum_app.
Qed.

(** X14: the order of the responses does not matter to
    [toprf_thresholdcombine]. *)
Theorem toprf_thresholdcombine_permutation rs rs' :
  Permutation rs rs' -> toprf_thresholdcombine rs = toprf_thresholdcombine rs'.
Proof.
  intros Hperm. rewrite !toprf_thresholdcombine_spec. f_equal.
  apply ge25519_sum_permutation, decode_valid_permutation.
  now apply Permutation_map.
Qed.

(** What the scalar multiplication gives on a response that it accepts. *)
Lemma scalarmult_accepted indexes r q :
  ~ rejected indexes r ->
  exists V,
    ristretto255_frombytes (part_value r) = Some V /\
    crypto_scalarmult_ristretto255 q (coeff (part_index r) indexes) (part_value r)
    = (0, ristretto255_p3_tobytes
            (ge25519_scalarmult (coeff (part_index r) indexes) V)).
Proof.
  intros Hacc.
  pose proof (crypto_scalarmult_ristretto255_fails q
                (coeff (part_index r) indexes) (part_value r)
                (coeff_range _ _)) as Hf.
  assert (Hrc : fst (crypto_scalarmult_ristretto255 q
                       (coeff (part_index r) indexes) (part_value r)) = 0).
  { destruct (Z.eq_dec (fst (crypto_scalarmult_ristretto255 q
                       (coeff (part_index r) indexes) (part_value r))) 0)
      as [E|E]; [exact E|]. elim Hacc. now apply Hf. }
  revert Hrc. unfold crypto_scalarmult_ristretto255.
  destruct (ristretto255_frombytes (part_value r)) as [V|] eqn:HV;
    cbn [fst]; [|discriminate].
  intros Hrc. exists V. split; [reflexivity|].
  pose proof (coeff_range (part_index r) indexes) as Hc.
  assert (HL : L < 2 ^ 255) by reflexivity.
  rewrite Hrc. now rewrite (Z.mod_small (coeff (part_index r) indexes)) by lia.
Qed.

Lemma thresholdmult_loop_accepted indexes : forall responses result acc,
  ristretto255_frombytes result = Some acc ->
  Forall (fun r => ~ rejected indexes r) responses ->
  thresholdmult_loop indexes responses result
  = (0, ristretto255_p3_tobytes
          (ge25519_add acc
             (ge25519_sum
                (decode_valid (map part_value (scale_parts indexes responses)))))).
Proof.
  induction responses as [|r rest IH]; intros result acc Hacc Hall;
    cbn [thresholdmult_loop scale_parts map decode_valid ge25519_sum part_value].
  - rewrite ge25519_add_0_r. f_equal. symmetry.
    now apply ristretto255_tobytes_frombytes.
  - inversion Hall as [|? ? Hr Hrest]; subst.
    destruct (scalarmult_accepted indexes r 0 Hr) as (V & HV & E).
    rewrite E. cbn [Z.eqb snd].
    unfold crypto_core_ristretto255_add.
    rewrite Hacc, !ristretto255_frombytes_tobytes.
    fold (scale_parts indexes rest).
    rewrite (IH _ _ (ristretto255_frombytes_tobytes _) Hrest).
    cbn [ge25519_sum]. f_equal. f_equal.
    rewrite <- ge25519_add_assoc. f_equal. apply ge25519_add_comm.
Qed.

Lemma thresholdmult_loop_app indexes : forall pre rest result,
  thresholdmult_loop indexes (pre ++ rest) result
  = if fst (thresholdmult_loop indexes pre result) =? 0
    then thresholdmult_loop indexes rest
           (snd (thresholdmult_loop indexes pre result))
    else thresholdmult_loop indexes pre result.
Proof.
  induction pre as [|r pre IH]; intros rest result;
    cbn [app thresholdmult_loop]; [reflexivity|].
  destruct (crypto_scalarmult_ristretto255 0 _ (part_value r)) as [rc gki].
  destruct (rc =? 0); [|reflexivity].
  destruct (crypto_core_ristretto255_add result result gki) as [rc' result'].
  apply IH.
Qed.

(** X15: [toprf_thresholdmult] is [toprf_thresholdcombine] after the
    scalar multiplications.  When the scalar multiplication rejects no
    response, the call returns 0 and the result is what
    [toprf_thresholdcombine] gives on the responses each multiplied by the
    coefficient of its index. *)
Theorem toprf_thresholdmult_accepted responses :
  Forall (fun r => ~ rejected (map part_index responses) r) responses ->
  toprf_thresholdmult responses
  = (0, toprf_thresholdcombine
          (scale_parts (map part_index responses) responses)).
Proof.
  intros Hall. unfold toprf_thresholdmult.
  rewrite (thresholdmult_loop_accepted _ _ _ _ ristretto255_frombytes_0 Hall).
  now rewrite ge25519_add_0_l, toprf_thresholdcombine_spec.
Qed.

(** X16: [toprf_thresholdmult] stops at the first response that the
    scalar multiplication rejects.  It returns 1, the responses after it
    are not read, and [result] is not left as it was: it holds the
    combination of the scaled responses before the rejected one, the
    all-zero string when the first response is rejected. *)
Theorem toprf_thresholdmult_stops pre r post :
  Forall (fun x => ~ rejected (map part_index (pre ++ r :: post)) x) pre ->
  rejected (map part_index (pre ++ r :: post)) r ->
  toprf_thresholdmult (pre ++ r :: post)
  = (1, toprf_thresholdcombine
          (scale_parts (map part_index (pre ++ r :: post)) pre)).
Proof.
  intros Hpre Hr. unfold toprf_thresholdmult.
  set (indexes := map part_index (pre ++ r :: post)) in *.
  rewrite thresholdmult_loop_app.
  rewrite (thresholdmult_loop_accepted _ _ _ _ ristretto255_frombytes_0 Hpre).
  cbn [fst snd Z.eqb thresholdmult_loop].
  pose proof (crypto_scalarmult_ristretto255_fails 0
                (coeff (part_index r) indexes) (part_value r)
                (coeff_range _ _)) as Hf.
  destruct (crypto_scalarmult_ristretto255 0 _ (part_value r)) as [rc gki].
  cbn [fst] in Hf.
  destruct (Z.eqb_spec rc 0) as [->|_].
  - exfalso. now apply (proj2 Hf).
  - now rewrite ge25519_add_0_l, toprf_thresholdcombine_spec.
Qed.

(** X17: a single response.  Its coefficient is 1: the call returns 0 and
    copies the value when it is a valid encoding other than the all-zero
    string, and returns 1 with an all-zero result otherwise. *)
Theorem toprf_thresholdmult_single r :
  toprf_thresholdmult [r]
  = if crypto_core_ristretto255_is_valid_point (part_value r)
       && negb (part_value r =? 0)
    then (0, part_value r) else (1, 0).
Proof.
  unfold toprf_thresholdmult, crypto_core_ristretto255_is_valid_point.
  cbn [map thresholdmult_loop].
  assert (Hc : coeff (part_index r) [part_index r] = 1).
  { unfold coeff. cbn [coeff_loop]. now rewrite Z.eqb_refl. }
  rewrite Hc. unfold crypto_scalarmult_ristretto255.
  destruct (ristretto255_frombytes (part_value r)) as [V|] eqn:HV;
    cbn [andb]; [|reflexivity].
  change (1 mod 2 ^ 255) with 1. rewrite ge25519_scalarmult_1.
  rewrite (ristretto255_tobytes_frombytes _ _ HV).
  destruct (part_value r =? 0); cbn [negb Z.eqb]; [reflexivity|].
  unfold crypto_core_ristretto255_add.
  rewrite ristretto255_frombytes_0, HV, ge25519_add_0_l.
  now rewrite (ristretto255_tobytes_frombytes _ _ HV).
Qed.

Lemma rejected_permutation indexes indexes' r :
  Forall is_byte indexes -> is_byte (part_index r) ->
  Permutation indexes indexes' ->
  rejected indexes r <-> rejected indexes' r.
Proof.
  intros Hb Hr Hperm. unfold rejected.
  now rewrite (coeff_permutation _ _ _ Hr Hb Hperm).
Qed.

(** X18: the order of the responses matters to [toprf_thresholdmult] only
    through the result of a failed call.  On responses with index bytes,
    a reordering returns the same code, and when that code is 0 the same
    result. *)
Theorem toprf_thresholdmult_permutation rs rs' :
  Forall is_byte (map part_index rs) -> Permutation rs rs' ->
  fst (toprf_thresholdmult rs) = fst (toprf_thresholdmult rs') /\
  (fst (toprf_thresholdmult rs) = 0 ->
   toprf_thresholdmult rs = toprf_thresholdmult rs').
Proof.
  intros Hb Hperm.
  assert (Hidx : Permutation (map part_index rs) (map part_index rs'))
    by now apply Permutation_map.
  assert (Hrej : forall r, In r rs ->
            (rejected (map part_index rs) r <-> rejected (map part_index rs') r)).
  { intros r Hr. apply rejected_permutation; try assumption.
    rewrite Forall_map, Forall_forall in Hb. now apply Hb. }
  assert (Hex : Exists (rejected (map part_index rs)) rs <->
                Exists (rejected (map part_index rs')) rs').
  { rewrite !Exists_exists. split; intros (r & Hin & Hr).
    - exists r. split; [eapply Permutation_in; eassumption|now apply Hrej].
    - assert (In r rs) by (eapply Permutation_in; [symmetry|]; eassumption).
      exists r. split; [assumption|now apply Hrej]. }
  assert (Hcode : fst (toprf_thresholdmult rs) = 0 <->
                  fst (toprf_thresholdmult rs') = 0).
  { pose proof (thresholdmult_loop_fails (map part_index rs) rs 0) as H1.
    pose proof (thresholdmult_loop_fails (map part_index rs') rs' 0) as H2.
    unfold toprf_thresholdmult.
    destruct (Z.eq_dec (fst (thresholdmult_loop (map part_index rs) rs 0)) 0),
             (Z.eq_dec (fst (thresholdmult_loop (map part_index rs') rs' 0)) 0);
      tauto. }
  split.
  - pose proof (thresholdmult_loop_rc (map part_index rs) rs 0) as H1.
    pose proof (thresholdmult_loop_rc (map part_index rs') rs' 0) as H2.
    unfold toprf_thresholdmult in *. lia.
  - intros H0.
    assert (Hall : Forall (fun r => ~ rejected (map part_index rs) r) rs).
    { rewrite Forall_forall. intros r Hin Hr.
      apply (proj2 (thresholdmult_loop_fails (map part_index rs) rs 0));
        [|exact H0]. rewrite Exists_exists. now exists r. }
    assert (Hall' : Forall (fun r => ~ rejected (map part_index rs') r) rs').
    { rewrite Forall_forall. intros r Hin Hr.
      apply (proj2 (thresholdmult_loop_fails (map part_index rs') rs' 0));
        [|now apply Hcode]. rewrite Exists_exists. now exists r. }
    unfold toprf_thresholdmult.
    rewrite (thresholdmult_loop_accepted _ _ _ _ ristretto255_frombytes_0 Hall).
    rewrite (thresholdmult_loop_accepted _ _ _ _ ristretto255_frombytes_0 Hall').
    f_equal. f_equal. f_equal.
    apply ge25519_sum_permutation, decode_valid_permutation, Permutation_map.
    unfold scale_parts.
    rewrite (map_ext_in _ (fun r => mkPart (part_index r)
               (snd (crypto_scalarmult_ristretto255 0
                       (coeff (part_index r) (map part_index rs'))
                       (part_value r)))) rs).
    + now apply Permutation_map.
    + intros r Hr.
      assert (Hi : is_byte (part_index r)).
      { pose proof Hb as Hb'. rewrite Forall_map, Forall_forall in Hb'.
        now apply Hb'. }
      now rewrite (coeff_permutation _ _ _ Hi Hb Hidx).
Qed.

(** The combination of the partial evaluations of any shares. *)
Lemma combine_partial_evaluations shares alpha A P Zbuf :
  ristretto255_frombytes alpha = Some A ->
  toprf_thresholdcombine (map snd (partial_evaluations shares alpha P Zbuf))
  = ristretto255_p3_tobytes
      (ge25519_sum
         (map (fun i => ge25519_scalarmult
                 (crypto_core_ristretto255_scalar_mul (coeff i P)
                    (share_value (share_at shares i))) A) P)).
Proof.
  intros HA. unfold partial_evaluations.
  rewrite toprf_thresholdcombine_spec, !map_map.
  rewrite (map_ext _ (fun i => ristretto255_p3_tobytes
             (ge25519_scalarmult
                (crypto_core_ristretto255_scalar_mul (coeff i P)
                   (share_value (share_at shares i))) A))).
  - now rewrite <- (map_map _ ristretto255_p3_tobytes), decode_valid_tobytes.
  - intros i. rewrite (toprf_Evaluate_valid _ _ _ _ _ A HA).
    cbn [snd part_value]. unfold crypto_core_ristretto255_scalar_mul.
    now rewrite Z.mul_comm.
Qed.

(** X19: the two ways of the protocol agree on any shares.  For index
    bytes other than 0 and raw parts none of which is the identity,
    [toprf_thresholdmult] on the raw parts [alpha^(k_i)] returns 0 and
    gives what [toprf_thresholdcombine] gives on the outputs of
    [toprf_Evaluate], whether or not the [k_i] are shares of anything. *)
Theorem thresholdmult_raw_equals_combine shares P (A : ge25519_p3) Zbuf :
  Forall (fun i => 0 < i < 256) P ->
  Forall (fun i => 0 <= share_value (share_at shares i)) P ->
  Forall (fun r => part_value r <> 0) (raw_parts shares A P) ->
  toprf_thresholdmult (raw_parts shares A P)
  = (0, toprf_thresholdcombine
          (map snd (partial_evaluations shares (ristretto255_p3_tobytes A) P Zbuf))).
Proof.
  intros HP Hk Hnz.
  rewrite (combine_partial_evaluations shares _ A P Zbuf
             (ristretto255_frombytes_tobytes A)).
  unfold toprf_thresholdmult. rewrite raw_parts_index. unfold raw_parts in *.
  rewrite (thresholdmult_loop_raw P A
             (fun i => share_value (share_at shares i)) P 0 ge25519_p3_0
             ristretto255_frombytes_0).
  - now rewrite ge25519_add_0_l.
  - rewrite Forall_map in Hnz. rewrite Forall_forall in Hnz, HP, Hk |- *.
    intros i Hi. split; [now apply Hk|]. split.
    + apply coeff_nz; [pose proof (HP i Hi); unfold is_byte; lia|].
      now rewrite Forall_forall.
    + intros E. apply (Hnz i Hi). cbn [part_value]. rewrite E.
      apply ristretto255_tobytes_0.
Qed.

(** X20: threshold evaluation with a quorum of any size.  For shares of
    [s] created with threshold [t] and at least [t] distinct share indexes,
    [toprf_thresholdcombine] of the outputs of [toprf_Evaluate] is
    [alpha^s], and so is the result of [toprf_thresholdmult] on the raw
    parts when none of them is the identity. *)
Theorem toprf_threshold_quorum
    fuel rand calls s n t shares0 shares calls' P (A : ge25519_p3) Zbuf :
  0 <= s < L -> 2 <= t <= n -> n <= 255 ->
  toprf_create_shares fuel rand calls s n t shares0 = Returned (shares, calls') ->
  NoDup P -> Forall (fun i => 1 <= i <= n) P -> t <= Z.of_nat (length P) ->
  toprf_thresholdcombine
    (map snd (partial_evaluations shares (ristretto255_p3_tobytes A) P Zbuf))
  = ristretto255_p3_tobytes (ge25519_scalarmult s A) /\
  (Forall (fun r => part_value r <> 0) (raw_parts shares A P) ->
   toprf_thresholdmult (raw_parts shares A P)
   = (0, ristretto255_p3_tobytes (ge25519_scalarmult s A))).
Proof.
  intros Hs Ht Hn Hret Hnd HP Hlen.
  destruct (shares_reconstruct_quorum _ _ _ _ _ _ _ _ _ P Hs Ht Hn Hret Hnd HP Hlen)
    as [Hrec Hrange].
  assert (Hsum : ge25519_sum
            (map (fun i => ge25519_scalarmult
                    (crypto_core_ristretto255_scalar_mul (coeff i P)
                       (share_value (share_at shares i))) A) P)
          = ge25519_scalarmult s A).
  { apply (exponent_sum A
      (fun i => crypto_core_ristretto255_scalar_mul (coeff i P)
                  (share_value (share_at shares i)))).
    - rewrite Forall_forall. intros i _. apply scalar_mul_range.
    - exact Hrec.
    - exact Hs. }
  split.
  - rewrite (combine_partial_evaluations shares _ A P Zbuf
               (ristretto255_frombytes_tobytes A)).
    now rewrite Hsum.
  - intros Hnz. unfold toprf_thresholdmult. rewrite raw_parts_index.
    unfold raw_parts in *.
    rewrite (thresholdmult_loop_raw P A
               (fun i => share_value (share_at shares i)) P 0 ge25519_p3_0
               ristretto255_frombytes_0).
    + now rewrite ge25519_add_0_l, Hsum.
    + rewrite Forall_map in Hnz. rewrite Forall_forall in Hnz, HP |- *.
      intros i Hi. split; [now apply Hrange|]. split.
      * apply coeff_nz; [pose proof (HP i Hi); unfold is_byte; lia|].
        rewrite Forall_forall. intros j Hj. specialize (HP j Hj). lia.
      * intros E. apply (Hnz i Hi). cbn [part_value]. rewrite E.
        apply ristretto255_tobytes_0.
Qed.
End GroupExtras.

(** ** Packed structs *)





(** X22: the byte arrays of toprf.h have the stride of the packed structs
    of toprf.c that they are cast to: [TOPRF_Share_BYTES] is
    [sizeof(TOPRF_Share)], [TOPRF_Part_BYTES] is [sizeof(TOPRF_Part)], and
    in both the value starts at offset 1. *)
Theorem TOPRF_BYTES_are_sizeof :
  TOPRF_Share_BYTES = sizeof_packed TOPRF_Share_members /\
  TOPRF_Part_BYTES = sizeof_packed TOPRF_Part_members /\
  offsetof_packed TOPRF_Share_members 1 = 1 /\
  offsetof_packed TOPRF_Part_members 1 = 1.
Proof. repeat split; reflexivity. Qed.

(** ** The group side on the reference group *)

Lemma toprf_thresholdcombine_permutation_witness :
  @toprf_thresholdcombine ZL_group [mkPart 1 14; mkPart 2 6; mkPart 3 1]
  = @toprf_thresholdcombine ZL_group [mkPart 2 6; mkPart 1 14; mkPart 3 1].
Proof.
  apply (@toprf_thresholdcombine_permutation ZL_group
           [mkPart 1 14; mkPart 2 6; mkPart 3 1]
           [mkPart 2 6; mkPart 1 14; mkPart 3 1]).
  apply perm_swap.
Defined.

Lemma toprf_thresholdmult_accepted_witness :
  @toprf_thresholdmult ZL_group [mkPart 1 14; mkPart 2 6]
  = (0, @toprf_thresholdcombine ZL_group
          (@scale_parts ZL_group (map part_index [mkPart 1 14; mkPart 2 6])
             [mkPart 1 14; mkPart 2 6])).
Proof.
  apply (@toprf_thresholdmult_accepted ZL_group [mkPart 1 14; mkPart 2 6]).
  repeat constructor; intros [H|[H|H]]; vm_compute in H; discriminate H.
Defined.

Lemma toprf_thresholdmult_stops_witness :
  @toprf_thresholdmult ZL_group ([mkPart 1 14] ++ mkPart 2 1 :: [mkPart 3 6])
  = (1, @toprf_thresholdcombine ZL_group
          (@scale_parts ZL_group
             (map part_index ([mkPart 1 14] ++ mkPart 2 1 :: [mkPart 3 6]))
             [mkPart 1 14])).
Proof.
  apply (@toprf_thresholdmult_stops ZL_group [mkPart 1 14] (mkPart 2 1) [mkPart 3 6]).
  - repeat constructor; intros [H|[H|H]]; vm_compute in H; discriminate H.
  - left. vm_compute. reflexivity.
Defined.

Lemma toprf_thresholdmult_permutation_witness :
  fst (@toprf_thresholdmult ZL_group [mkPart 1 14; mkPart 2 6])
  = fst (@toprf_thresholdmult ZL_group [mkPart 2 6; mkPart 1 14]) /\
  (fst (@toprf_thresholdmult ZL_group [mkPart 1 14; mkPart 2 6]) = 0 ->
   @toprf_thresholdmult ZL_group [mkPart 1 14; mkPart 2 6]
   = @toprf_thresholdmult ZL_group [mkPart 2 6; mkPart 1 14]).
Proof.
  apply (@toprf_thresholdmult_permutation ZL_group
           [mkPart 1 14; mkPart 2 6] [mkPart 2 6; mkPart 1 14]).
  - repeat constructor; unfold is_byte; cbn; lia.
  - apply perm_swap.
Defined.

Lemma thresholdmult_raw_equals_combine_witness :
  @toprf_thresholdmult ZL_group
    (@raw_parts ZL_group [mkShare 1 5; mkShare 2 0; mkShare 3 11]
       (Zmod.of_Z L 7) [1; 3])
  = (0, @toprf_thresholdcombine ZL_group
          (map snd
             (@partial_evaluations ZL_group
                [mkShare 1 5; mkShare 2 0; mkShare 3 11]
                (@ristretto255_p3_tobytes ZL_group (Zmod.of_Z L 7)) [1; 3]
                (fun _ => mkPart 0 0)))).
Proof.
  apply (@thresholdmult_raw_equals_combine ZL_group
           [mkShare 1 5; mkShare 2 0; mkShare 3 11] [1; 3] (Zmod.of_Z L 7)
           (fun _ => mkPart 0 0)).
  - repeat constructor; lia.
  - repeat (apply Forall_cons; [vm_compute; discriminate|]). apply Forall_nil.
  - repeat (apply Forall_cons; [vm_compute; discriminate|]). apply Forall_nil.
Defined.

Lemma toprf_threshold_quorum_witness :
  @toprf_thresholdcombine ZL_group
    (map snd
       (@partial_evaluations ZL_group example_shares
          (@ristretto255_p3_tobytes ZL_group (Zmod.of_Z L 7)) [3; 1; 2]
          (fun _ => mkPart 0 0)))
  = @ristretto255_p3_tobytes ZL_group
      (@ge25519_scalarmult ZL_group 42 (Zmod.of_Z L 7)) /\
  (Forall (fun r => part_value r <> 0)
     (@raw_parts ZL_group example_shares (Zmod.of_Z L 7) [3; 1; 2]) ->
   @toprf_thresholdmult ZL_group
     (@raw_parts ZL_group example_shares (Zmod.of_Z L 7) [3; 1; 2])
   = (0, @ristretto255_p3_tobytes ZL_group
           (@ge25519_scalarmult ZL_group 42 (Zmod.of_Z L 7)))).
Proof.
  apply (@toprf_threshold_quorum ZL_group 4 example_rand 0 42 3 2
           (example_buffer 3) example_shares 1%nat [3; 1; 2] (Zmod.of_Z L 7)
           (fun _ => mkPart 0 0)).
  - split; [lia|reflexivity].
  - lia.
  - lia.
  - vm_compute. reflexivity.
  - repeat constructor; cbn; lia.
  - repeat constructor; lia.
  - cbn. lia.
Defined.
